(** * Celo: envelope codec and the Encrypter / Decrypter sessions

    A shallow embedding of the Go package [celo] (celo.go, metadata.go,
    phrase.go, encrypter.go, the cipher and decrypter sources, and the
    [errors] package) together with the properties of the envelope format
    and of the two session state machines.

    Conventions of the embedding.
    - A Go [[]byte] is a [list byte].  The three slice fields of the session
      ([salt], [nonce], [ciphertext]) are [option (list byte)], [None] being
      the nil slice, because the code tests [d.salt == nil].
    - A Go [int] is a [Z].
    - A method with a pointer receiver takes the session and returns the
      updated session next to its Go results.  A Go result pair [(x, err)]
      is a pair whose second component is an [option error], [None] being
      the nil error.
    - A function that can panic at run time (nil pointer dereference,
      [make] with a negative length, a nonce of the wrong length handed to
      GCM) returns an [option], [None] being the panic.
    - An [io.Reader] is the list of bytes it still holds; the entropy source
      [rand.Reader] is such a reader too, so that its failure can be
      expressed.  An [io.Writer] is a [Sink] with an optional capacity. *)

From Stdlib Require Import List String Ascii ZArith NArith Bool Lia.
From Stdlib Require Import Init.Byte Strings.Byte.
Import ListNotations.

Local Open Scope string_scope.
Local Open Scope list_scope.
Local Open Scope Z_scope.

Set Warnings "-register-all".

(** ** Byte slices *)

Definition bytes := list byte.

(** The content of a slice field; a nil slice has no bytes. *)
Definition bytes_of (s : option bytes) : bytes :=
  match s with
  | Some b => b
  | None => []
  end.

(** [len(s)] as a Go [int]. *)
Definition len (b : bytes) : Z := Z.of_nat (List.length b).

(** [bytes.Equal]: same length and same bytes; nil equals empty. *)
Fixpoint bytes_Equal (a b : bytes) : bool :=
  match a, b with
  | [], [] => true
  | x :: a', y :: b' => Byte.eqb x y && bytes_Equal a' b'
  | _, _ => false
  end.

(** [byte(c)] for an untyped integer constant [c]. *)
Definition byte_of_Z (c : Z) : byte :=
  match Byte.of_N (Z.to_N (c mod 256)) with
  | Some b => b
  | None => x00
  end.

(** The numeric value of a byte, for the ordered comparisons. *)
Definition byte_val (b : byte) : Z := Z.of_N (Byte.to_N b).

(** [make([]byte, n)]: a zeroed slice; panics when [n] is negative. *)
Definition make_bytes (n : Z) : option bytes :=
  if n <? 0 then None else Some (repeat x00 (Z.to_nat n)).

(** ** errors/errors.go *)

Module errors.

Inductive Kind : Set :=
| Other | Invalid | PhraseIsEmpty | PhraseMismatch | PhraseOther
| Permissions | Create | Open | Exist | NotExist | IsDir | Pattern
| Signature | Metadata | NotReady | BlockSize | Nonce | NonceSize
| Salt | SaltSize | Ciphertext | Cipher | Plaintext | Encode | Decode
| Incompatible | Decrypt | Encrypt | Internal.

Scheme Equality for Kind.

(** Go's [error] values that reach this package: the sentinel errors of
    [io], the key-size error of [crypto/aes], the authentication failure of
    [crypto/cipher], and the package's own [*Error]. *)
Inductive error : Type :=
| io_EOF
| io_ErrUnexpectedEOF
| io_ErrShortWrite
| aes_KeySizeError (k : nat)
| cipher_errOpen
| Error (Entity : string) (Op : string) (K : Kind) (Err : option error).

(** [errors.E(kind, op)] and [errors.E(kind, op, err)].  When the
    underlying error is one of ours, a duplicated kind is cleared in the
    copy and an unset kind is pulled up from it. *)
Definition E (kind : Kind) (op : string) (err : option error) : error :=
  match err with
  | Some (Error pent pop pk perr) =>
      let pent := if (pent =? "")%string then "" else pent in
      let pk := if Kind_beq pk kind then Other else pk in
      if Kind_beq kind Other
      then Error "" op pk (Some (Error pent pop Other perr))
      else Error "" op kind (Some (Error pent pop pk perr))
  | _ => Error "" op kind err
  end.

(** [errors.Is(kind, err)]. *)
Fixpoint Is (kind : Kind) (err : error) : bool :=
  match err with
  | Error _ _ k e =>
      if negb (Kind_beq k Other) then Kind_beq k kind
      else match e with
           | Some e' => Is kind e'
           | None => false
           end
  | _ => false
  end.

End errors.

Import errors (error(..), E, Is).

(** [errors.Is] lifted to a possibly nil error. *)
Definition fails_with (kind : errors.Kind) (err : option error) : bool :=
  match err with
  | Some e => Is kind e
  | None => false
  end.

(** ** Readers and writers *)

(** An [io.Reader] over an in-memory source: the bytes not yet consumed. *)
Definition Reader := bytes.

(** [io.ReadFull(r, buf)] for a freshly made (zeroed) buffer of [n] bytes.
    Returns the reader after the call, the buffer, the count of bytes read
    and the error: [io.EOF] when nothing could be read, and
    [io.ErrUnexpectedEOF] when the source ended part-way. *)
Definition ReadFull (r : Reader) (n : nat) : Reader * (bytes * Z * option error) :=
  if (n <=? List.length r)%nat
  then (skipn n r, (firstn n r, Z.of_nat n, None))
  else ([], (r ++ repeat x00 (n - List.length r), len r,
             Some (match r with [] => io_EOF | _ => io_ErrUnexpectedEOF end))).

(** [ioutil.ReadAll(r)]: every remaining byte; the end of the source is not
    an error. *)
Definition ReadAll (r : Reader) : Reader * (bytes * option error) :=
  ([], (r, None)).

(** An [io.Writer]: what has been written so far and, when the sink is
    bounded, how many more bytes it accepts. *)
Record Sink : Type := mkSink {
  written : bytes;
  room : option nat
}.

(** [w.Write(p)]: accepts all of [p], or the part that fits together with
    [io.ErrShortWrite]. *)
Definition Sink_Write (w : Sink) (p : bytes) : Sink * (Z * option error) :=
  match room w with
  | None => (mkSink (written w ++ p) None, (len p, None))
  | Some k =>
      if (List.length p <=? k)%nat
      then (mkSink (written w ++ p) (Some (k - List.length p)%nat), (len p, None))
      else (mkSink (written w ++ firstn k p) (Some 0%nat),
            (Z.of_nat k, Some io_ErrShortWrite))
  end.

(** ** celo.go: constants *)

Definition Aes256BlockSize : Z := 32.
Definition SaltSize : Z := 32.
Definition NonceSize : Z := 12.
Definition Extension : string := "celo".
Definition Version : Z := 1.
Definition MinVersion : byte := x01.
Definition MaxVersion : byte := x01.

(** ** metadata.go *)

Definition SignatureSize : Z := 32.

Definition signatureHeader : bytes := [x0a; x1a; x43; x45; x4c; x4f; x0a; x1a].

Definition versionIndex : nat := 0.
Definition saltSizeIndex : nat := 1.
Definition blockSizeIndex : nat := 2.
Definition nonceSizeIndex : nat := 3.

(** The arrays [[8]byte], [[4]byte] and [[20]byte] are lists of that
    length; [a[i]] is [nth i a x00]. *)
Record Metadata : Type := mkMetadata {
  signature : bytes;
  vsbn : bytes;
  reserved : bytes
}.

Definition byte_at (a : bytes) (i : nat) : byte := nth i a x00.

(** [Metadata.Bytes]: the eight signature bytes, the four [vsbn] bytes and
    twenty bytes left at zero (the reserved field is not copied). *)
Definition Metadata_Bytes (m : Metadata) : bytes :=
  firstn 8 (signature m ++ repeat x00 8)
  ++ [byte_at (vsbn m) versionIndex; byte_at (vsbn m) saltSizeIndex;
      byte_at (vsbn m) blockSizeIndex; byte_at (vsbn m) nonceSizeIndex]
  ++ repeat x00 20.

Definition ValidateMetadata (signature vsbn reserved : bytes) : option error :=
  let op := "metadata.ValidateMetadata" in
  if negb (bytes_Equal signature signatureHeader) then
    Some (E errors.Signature op None)
  else if (byte_val (byte_at vsbn versionIndex) <? byte_val MinVersion)
          || (byte_val (byte_at vsbn versionIndex) >? byte_val MaxVersion) then
    Some (E errors.Incompatible op None)
  else if negb (byte_val (byte_at vsbn blockSizeIndex) =? 16)
          && negb (byte_val (byte_at vsbn blockSizeIndex) =? 32) then
    Some (E errors.NonceSize op None)
  else if byte_val (byte_at vsbn nonceSizeIndex) >? 32 then
    Some (E errors.NonceSize op None)
  else
    None.

(** [DecodeMetadata].  The three [if n, err := ...; err != nil] statements
    declare their own [n], [vn] and [rn], visible only inside the [if]; the
    result [n] and the outer [vn], [rn] of [var vn, rn int] keep their zero
    value.  The inner variables are the primed ones below. *)
Definition DecodeMetadata (r : Reader)
  : Reader * (option Metadata * Z * option error) :=
  let op := "metadata.DecodeMetadata" in
  let n := 0 in
  let vn := 0 in
  let rn := 0 in
  let '(r, (signature, n', err)) := ReadFull r 8 in
  match err with
  | Some err => (r, (None, n', Some (E errors.Metadata op (Some err))))
  | None =>
  let '(r, (vsbn, vn', err)) := ReadFull r 4 in
  match err with
  | Some err => (r, (None, n + vn', Some (E errors.Metadata op (Some err))))
  | None =>
  let n := n + vn in
  let '(r, (reserved, rn', err)) := ReadFull r 20 in
  match err with
  | Some err => (r, (None, n + rn', Some (E errors.Metadata op (Some err))))
  | None =>
  let n := n + rn in
  match ValidateMetadata signature vsbn reserved with
  | Some err => (r, (None, n, Some err))
  | None => (r, (Some (mkMetadata signature vsbn reserved), n, None))
  end end end end.

Definition newCurrentMetadata : Metadata :=
  mkMetadata signatureHeader
    [byte_of_Z Version; byte_of_Z SaltSize;
     byte_of_Z Aes256BlockSize; byte_of_Z NonceSize]
    (repeat x00 20).

(** ** The primitives of the Go libraries

    [argon2.IDKey], and the [Seal] and [Open] of the GCM mode over AES, are
    not code of this package.  They are an interface here; the AEAD
    instance made from a key is represented by that key. *)

Class Primitives : Type := {
  (** [argon2.IDKey(password, salt, time, memory, threads, keyLen)] *)
  argon2_IDKey : bytes -> bytes -> Z -> Z -> Z -> Z -> bytes;
  (** [aead.Seal(nil, nonce, plaintext, additionalData)] under a key *)
  gcm_Seal : bytes -> bytes -> bytes -> bytes -> bytes;
  (** [aead.Open(nil, nonce, ciphertext, additionalData)] under a key;
      [None] is the authentication failure *)
  gcm_Open : bytes -> bytes -> bytes -> bytes -> option bytes
}.

(** The key lengths [aes.NewCipher] accepts. *)
Definition aes_key_size_ok (key : bytes) : bool :=
  match List.length key with
  | 16%nat | 24%nat | 32%nat => true
  | _ => false
  end.

(** [gcmStandardNonceSize], the nonce size of [cipher.NewGCM]. *)
Definition gcmStandardNonceSize : Z := 12.

(** What the package relies on: the derived key has the requested length,
    and opening what was sealed under the same key, nonce and associated
    data gives the plaintext back. *)
Class PrimitivesLaws (P : Primitives) : Prop := {
  IDKey_length : forall password salt time memory threads keyLen,
    0 <= keyLen ->
    len (argon2_IDKey password salt time memory threads keyLen) = keyLen;
  Open_Seal : forall key nonce plaintext data,
    aes_key_size_ok key = true ->
    len nonce = gcmStandardNonceSize ->
    gcm_Open key nonce (gcm_Seal key nonce plaintext data) data = Some plaintext
}.

Section Celo.

Context {P : Primitives}.

(** ** phrase.go *)

(** The conversion [uint32(n)] of an [int]. *)
Definition uint32 (n : Z) : Z := n mod 2 ^ 32.

Definition NewSalt (saltSize : Z) (rnd : Reader)
  : option (Reader * (option bytes * Z * option error)) :=
  match make_bytes saltSize with
  | None => None
  | Some _ =>
      let '(rnd, (salt, n, err)) := ReadFull rnd (Z.to_nat saltSize) in
      match err with
      | Some err =>
          Some (rnd, (None, n, Some (E errors.Salt "phrase.NewSalt" (Some err))))
      | None => Some (rnd, (Some salt, n, None))
      end
  end.

Definition GenerateKey (phrase salt : bytes) (blockSize : Z) : bytes :=
  argon2_IDKey phrase salt 1 (64 * 1024) 4 blockSize.

(** ** cipher.go *)

Record Cipher : Type := mkCipher {
  cipher_blockSize : Z;
  aead : bytes
}.

(** [NewCipher]: only [aes.NewCipher] can fail, on the key length;
    [cipher.NewGCM] accepts every AES block.  The [nonceSize] argument is
    not used by the code. *)
Definition NewCipher (blockSize nonceSize : Z) (key : bytes)
  : option Cipher * option error :=
  let op := "cipher.NewCipher" in
  if aes_key_size_ok key
  then (Some (mkCipher blockSize key), None)
  else (None, Some (E errors.Cipher op (Some (aes_KeySizeError (List.length key))))).

Definition Cipher_NonceSize (c : Cipher) : Z := gcmStandardNonceSize.

Definition Cipher_Encrypt (c : Cipher) (plaintext additionalData : bytes)
    (rnd : Reader)
  : Reader * (option bytes * option bytes * option error) :=
  let '(rnd, (nonce, _, err)) := ReadFull rnd (Z.to_nat (Cipher_NonceSize c)) in
  match err with
  | Some err =>
      (rnd, (None, None, Some (E errors.Encrypt "cipher.Encrypt" (Some err))))
  | None =>
      let ciphertext := gcm_Seal (aead c) nonce plaintext additionalData in
      (rnd, (Some nonce, Some ciphertext, None))
  end.

(** [Cipher.Decrypt]; [aead.Open] panics on a nonce that has not the size
    of the mode. *)
Definition Cipher_Decrypt (c : Cipher) (nonce ciphertext : bytes)
  : option (bytes * option error) :=
  if len nonce =? gcmStandardNonceSize then
    match gcm_Open (aead c) nonce ciphertext [] with
    | Some plaintext => Some (plaintext, None)
    | None =>
        Some ([], Some (E errors.Decrypt "cipher.Decrypt" (Some cipher_errOpen)))
    end
  else None.

(** ** celo.go: the session shared by Encrypter and Decrypter *)

Record celo : Type := mkCelo {
  metadata : option Metadata;
  blockSize : Z;
  saltSize : Z;
  nonceSize : Z;
  salt : option bytes;
  nonce : option bytes;
  ciphertext : option bytes;
  cipher : option Cipher;
  ext : string;
  preserveKey : bool;
  initialized : bool
}.

Definition set_metadata (c : celo) (v : option Metadata) : celo :=
  mkCelo v (blockSize c) (saltSize c) (nonceSize c) (salt c) (nonce c)
    (ciphertext c) (cipher c) (ext c) (preserveKey c) (initialized c).

Definition set_salt (c : celo) (v : option bytes) : celo :=
  mkCelo (metadata c) (blockSize c) (saltSize c) (nonceSize c) v (nonce c)
    (ciphertext c) (cipher c) (ext c) (preserveKey c) (initialized c).

Definition set_nonce (c : celo) (v : option bytes) : celo :=
  mkCelo (metadata c) (blockSize c) (saltSize c) (nonceSize c) (salt c) v
    (ciphertext c) (cipher c) (ext c) (preserveKey c) (initialized c).

Definition set_ciphertext (c : celo) (v : option bytes) : celo :=
  mkCelo (metadata c) (blockSize c) (saltSize c) (nonceSize c) (salt c)
    (nonce c) v (cipher c) (ext c) (preserveKey c) (initialized c).

Definition set_cipher (c : celo) (v : option Cipher) : celo :=
  mkCelo (metadata c) (blockSize c) (saltSize c) (nonceSize c) (salt c)
    (nonce c) (ciphertext c) v (ext c) (preserveKey c) (initialized c).

Definition set_ext (c : celo) (v : string) : celo :=
  mkCelo (metadata c) (blockSize c) (saltSize c) (nonceSize c) (salt c)
    (nonce c) (ciphertext c) (cipher c) v (preserveKey c) (initialized c).

Definition set_initialized (c : celo) (v : bool) : celo :=
  mkCelo (metadata c) (blockSize c) (saltSize c) (nonceSize c) (salt c)
    (nonce c) (ciphertext c) (cipher c) (ext c) (preserveKey c) v.

(** The option [SetExtension(ext)] applied by [Config]. *)
Definition SetExtension (e : string) (c : celo) : celo := set_ext c e.

Definition IsReady (c : celo) : bool := initialized c.

Definition Wipe (c : celo) : celo :=
  let c := set_nonce c None in
  let c := set_ciphertext c None in
  let c := set_salt c None in
  let c := set_cipher c None in
  set_initialized c false.

(** [strings.HasPrefix], [strings.HasSuffix] and [strings.TrimSuffix], with
    the slice expression [s[a:b]] as [substring a (b - a) s]. *)
Definition HasPrefix (s prefix : string) : bool :=
  (String.length prefix <=? String.length s)%nat
  && (substring 0 (String.length prefix) s =? prefix)%string.

Definition HasSuffix (s suffix : string) : bool :=
  (String.length suffix <=? String.length s)%nat
  && (substring (String.length s - String.length suffix)
                (String.length suffix) s =? suffix)%string.

Definition TrimSuffix (s suffix : string) : string :=
  if HasSuffix s suffix
  then substring 0 (String.length s - String.length suffix) s
  else s.

(** [GetEncryptedFileName] and [GetDecryptedFileName] use the file only
    through [f.Name()], which is the argument [name] here. *)
Definition GetEncryptedFileName (c : celo) (name : string) : string :=
  if (ext c =? "")%string then name
  else
    let ext := ext c in
    let ext := if negb (HasPrefix ext ".") then ("." ++ ext)%string else ext in
    (name ++ ext)%string.

Definition GetDecryptedFileName (c : celo) (name : string) : string :=
  if (ext c =? "")%string then name
  else
    let ext := ext c in
    let ext := if negb (HasPrefix ext ".") then ("." ++ ext)%string else ext in
    if HasSuffix name ext && negb (name =? ext)%string
    then TrimSuffix name ext
    else name.

(** ** encrypter.go *)

Definition NewEncrypter : celo :=
  mkCelo (Some newCurrentMetadata) Aes256BlockSize SaltSize NonceSize
    None None None None Extension false false.

Definition Encrypter_Init (secretPhrase : bytes) (e : celo) (rnd : Reader)
  : option (celo * Reader * option error) :=
  if initialized e && preserveKey e then Some (e, rnd, None)
  else
    let e := set_initialized e true in
    match NewSalt (saltSize e) rnd with
    | None => None
    | Some (rnd, (s, _, err)) =>
        let e := set_salt e s in
        match err with
        | Some err => Some (e, rnd, Some err)
        | None =>
            let '(c, err) :=
              NewCipher (blockSize e) (nonceSize e)
                (GenerateKey secretPhrase (bytes_of (salt e))
                   (uint32 (blockSize e))) in
            match err with
            | Some err => Some (e, rnd, Some err)
            | None => Some (set_cipher e c, rnd, None)
            end
        end
    end.

(** [Encrypter.Encrypt]; the call [e.cipher.Encrypt] dereferences the
    cipher, which panics when it is nil. *)
Definition Encrypter_Encrypt (secretPhrase plaintext : bytes) (e : celo)
    (rnd : Reader)
  : option (celo * Reader * (bytes * option error)) :=
  match Encrypter_Init secretPhrase e rnd with
  | None => None
  | Some (e, rnd, Some err) => Some (e, rnd, ([], Some err))
  | Some (e, rnd, None) =>
      match cipher e with
      | None => None
      | Some c =>
          let '(rnd, (nonce, ct, err)) := Cipher_Encrypt c plaintext [] rnd in
          let e := set_ciphertext e ct in
          match err with
          | Some err => Some (e, rnd, ([], Some err))
          | None =>
              let e := set_nonce e nonce in
              Some (e, rnd, (bytes_of (ciphertext e), None))
          end
      end
  end.

(** [Encrypter.Write].  As in [DecodeMetadata], every
    [if x, err := w.Write(...); err != nil] declares its own [x] (primed
    below); the result [n] and the [sn], [nn], [cn] of [var sn, nn, cn int]
    are never assigned a count.  [e.metadata.Bytes()] panics on a nil
    metadata. *)
Definition Encrypter_Write (e : celo) (w : Sink)
  : option (Sink * (Z * option error)) :=
  let op := "encrypter.Write" in
  let n := 0 in
  if negb (IsReady e) then Some (w, (0, Some (E errors.NotReady op None)))
  else
    let sn := 0 in
    let nn := 0 in
    let cn := 0 in
    match metadata e with
    | None => None
    | Some m =>
    let '(w, (sn', err)) := Sink_Write w (Metadata_Bytes m) in
    match err with
    | Some err => Some (w, (sn', Some (E errors.Encode op (Some err))))
    | None =>
    let '(w, (n', err)) := Sink_Write w (bytes_of (salt e)) in
    match err with
    | Some err => Some (w, (n' + sn, Some (E errors.Encode op (Some err))))
    | None =>
    let n := n + sn in
    let '(w, (nn', err)) := Sink_Write w (bytes_of (nonce e)) in
    match err with
    | Some err => Some (w, (n + nn', Some (E errors.Encode op (Some err))))
    | None =>
    let n := n + nn in
    let '(w, (cn', err)) := Sink_Write w (bytes_of (ciphertext e)) in
    match err with
    | Some err => Some (w, (n + cn', Some (E errors.Encode op (Some err))))
    | None => Some (w, (n + cn, None))
    end end end end end.

Definition Encrypter_Encode (e : celo) (w : Sink) := Encrypter_Write e w.

(** ** decrypter.go *)

Definition NewDecrypter : celo :=
  mkCelo None Aes256BlockSize SaltSize NonceSize
    None None None None Extension false false.

Definition Decrypter_initCipher (secretPhrase : bytes) (d : celo)
  : celo * option error :=
  let '(c, err) :=
    NewCipher (blockSize d) (nonceSize d)
      (GenerateKey secretPhrase (bytes_of (salt d)) (uint32 (blockSize d))) in
  match err with
  | Some err => (d, Some err)
  | None => (set_cipher d c, None)
  end.

Definition Decrypter_Decrypt (secretPhrase : bytes) (d : celo)
  : option (celo * (bytes * option error)) :=
  if negb (IsReady d) then
    Some (d, ([], Some (E errors.NotReady "decrypter.Decrypt" None)))
  else
    let '(d, err) :=
      match cipher d with
      | None => Decrypter_initCipher secretPhrase d
      | Some _ => (d, None)
      end in
    match err with
    | Some err => Some (d, ([], Some err))
    | None =>
        match cipher d with
        | None => None
        | Some c =>
            match Cipher_Decrypt c (bytes_of (nonce d)) (bytes_of (ciphertext d)) with
            | None => None
            | Some (_, Some err) => Some (d, ([], Some err))
            | Some (plaintext, None) => Some (d, (plaintext, None))
            end
        end
    end.

(** [Decrypter.Read].  [metadata, n, err := DecodeMetadata(r)] assigns the
    result [n]; the two [if sn, err := ...] and [if nn, err := ...]
    statements declare their own counts (primed), so that [n += sn] and
    [n += nn] add the zero of [var sn, nn int]. *)
Definition Decrypter_Read (d : celo) (r : Reader)
  : option (celo * Reader * (Z * option error)) :=
  let op := "decrypter.Read" in
  let sn := 0 in
  let nn := 0 in
  let '(r, (m, n, err)) := DecodeMetadata r in
  match err with
  | Some err => Some (d, r, (n, Some err))
  | None =>
  let d := set_metadata d m in
  match make_bytes (saltSize d) with
  | None => None
  | Some _ =>
  let '(r, (s, sn', err)) := ReadFull r (Z.to_nat (saltSize d)) in
  match err with
  | Some err => Some (d, r, (n + sn', Some (E errors.Salt op (Some err))))
  | None =>
  let n := n + sn in
  let d :=
    if match salt d with None => true | Some _ => false end
       || negb (bytes_Equal s (bytes_of (salt d)))
    then set_cipher (set_salt d (Some s)) None
    else d in
  match make_bytes (nonceSize d) with
  | None => None
  | Some _ =>
  let '(r, (b, nn', err)) := ReadFull r (Z.to_nat (nonceSize d)) in
  let d := set_nonce d (Some b) in
  match err with
  | Some err => Some (d, r, (n + nn', Some (E errors.Nonce op (Some err))))
  | None =>
  let n := n + nn in
  let '(r, (ct, err)) := ReadAll r in
  let d := set_ciphertext d (Some ct) in
  let n := n + len ct in
  match err with
  | Some err => Some (d, r, (n, Some (E errors.Ciphertext op (Some err))))
  | None => Some (set_initialized d true, r, (n, None))
  end end end end end end.

Definition Decrypter_Decode (d : celo) (r : Reader) := Decrypter_Read d r.

End Celo.

(** ** errors/errors.go: the remaining constructors and the messages *)

(** [errors.E(kind, op, entity, err)], the call with an [Entity] argument.
    When the underlying error is one of ours, an entity equal to the new one
    is cleared in the copy. *)
Definition E_Entity (kind : errors.Kind) (op entity : string)
    (err : option error) : error :=
  match err with
  | Some (Error pent pop pk perr) =>
      let pent := if (pent =? entity)%string then "" else pent in
      let pk := if errors.Kind_beq pk kind then errors.Other else pk in
      if errors.Kind_beq kind errors.Other
      then Error entity op pk (Some (Error pent pop errors.Other perr))
      else Error entity op kind (Some (Error pent pop pk perr))
  | _ => Error entity op kind err
  end.

(** [Kind.String]: the table [Messages]; every kind has an entry. *)
Definition Kind_String (k : errors.Kind) : string :=
  match k with
  | errors.Other => "Unknown error"
  | errors.Invalid => "Invalid operation"
  | errors.PhraseIsEmpty => "Empty phrase is not allowed"
  | errors.PhraseMismatch => "Phrases don't match"
  | errors.PhraseOther => "Unable to get phrase"
  | errors.Permissions => "Insufficient permissions"
  | errors.Create => "File couldn't be created"
  | errors.Open => "File couldn't be opened"
  | errors.Exist => "File already exist"
  | errors.NotExist => "File doesn't exist"
  | errors.IsDir => "Directories are not supported"
  | errors.Pattern => "Invalid Glob Pattern"
  | errors.Signature => "File Signature is invalid"
  | errors.Metadata => "Metadata is invalid"
  | errors.NotReady => "Instance hasn't been initialized"
  | errors.BlockSize => "Block Size is invalid"
  | errors.Nonce => "Nonce is empty or invalid"
  | errors.NonceSize => "Nonce Size is invalid"
  | errors.Salt => "Salt is empty or invalid"
  | errors.SaltSize => "Salt Size is invalid"
  | errors.Ciphertext => "Ciphertext is invalid or corrupt"
  | errors.Cipher => "Cipher couldn't be created"
  | errors.Plaintext => "Plaintext is invalid or corrupt"
  | errors.Encode => "Unable to Encode content"
  | errors.Decode => "Unable to Decode content"
  | errors.Incompatible => "Incompatible version"
  | errors.Decrypt => "Unable to Decrypt content"
  | errors.Encrypt => "Unable to Encrypt content"
  | errors.Internal => "Internal error"
  end.

(** ** messages/messages.go *)

Inductive Message : Set := PhraseRead | PhraseConfirm | PhraseWarningMismatch.

Definition Message_String (m : Message) : string :=
  match m with
  | PhraseRead => "Enter Phrase:"
  | PhraseConfirm => "Confirm Phrase:"
  | PhraseWarningMismatch => "Phrases don't match, please try again"
  end.

(** ** metadata.go: the remaining functions *)

Definition SignatureHeader : bytes := signatureHeader.

Definition Metadata_Size (m : Metadata) : Z := SignatureSize.

Definition Metadata_Verify (m : Metadata) (b : bytes) : bool :=
  bytes_Equal (Metadata_Bytes m) b.

Definition newMetadata (version blockSize saltSize nonceSize : byte)
  : option Metadata * option error :=
  let vsbn := [version; saltSize; blockSize; nonceSize] in
  let reserved := repeat x00 20 in
  match ValidateMetadata signatureHeader vsbn reserved with
  | Some err => (None, Some err)
  | None => (Some (mkMetadata signatureHeader vsbn (repeat x00 20)), None)
  end.

(** ** celo.go: Config *)

(** The type [option] of the package, a function from the session to an
    error. *)
Definition config_option : Type := celo -> celo * option error.

Definition SetExtension_option (e : string) : config_option :=
  fun c => (SetExtension e c, None).

(** [Config] applies the options in order and drops what they return. *)
Definition Config (opts : list config_option) (c : celo) : celo :=
  fold_left (fun c opt => fst (opt c)) opts c.

(** ** phrase.go: reading the phrase from the terminal

    The terminal is the list of answers [terminal.ReadPassword] will give,
    a line or an error each, and what has been printed so far.  A terminal
    with no answer left gives [io.EOF]. *)

Record Terminal : Type := mkTerminal {
  answers : list (bytes + error);
  stdout : string
}.

Definition newline : string := String (Ascii.ascii_of_nat 10) "".

Definition fmt_Print (s : string) (t : Terminal) : Terminal :=
  mkTerminal (answers t) (stdout t ++ s)%string.

Definition fmt_Println (s : string) (t : Terminal) : Terminal :=
  fmt_Print (s ++ newline)%string t.

Definition terminal_ReadPassword (t : Terminal)
  : Terminal * (bytes * option error) :=
  match answers t with
  | [] => (t, ([], Some io_EOF))
  | inl line :: rest => (mkTerminal rest (stdout t), (line, None))
  | inr err :: rest => (mkTerminal rest (stdout t), ([], Some err))
  end.

Definition ReadPhrase (printLabel : bool) (t : Terminal)
  : Terminal * (bytes * option error) :=
  let t :=
    if printLabel then fmt_Print (Message_String PhraseRead ++ " ")%string t
    else t in
  let '(t, (phrase, err)) := terminal_ReadPassword t in
  let t := fmt_Println "" t in
  match err with
  | Some err =>
      (t, ([], Some (E errors.PhraseOther "phrase.ReadPhrase" (Some err))))
  | None => (t, (phrase, None))
  end.

(** The loop of [ReadAndConfirmPhrase], [i] being the [uint32] counter.
    [fuel] bounds the iterations; [None] is the fuel running out. *)
Fixpoint ReadAndConfirmPhrase_loop (fuel : nat) (retries i : Z) (t : Terminal)
  : option (Terminal * (bytes * option error)) :=
  let op := "phrase.ReadAndConfirmPhrase" in
  match fuel with
  | O => None
  | S fuel =>
  if (retries =? 0) || (i <=? retries) then
    let '(t, (first, err)) := ReadPhrase true t in
    match err with
    | Some err => Some (t, ([], Some (E errors.PhraseOther op (Some err))))
    | None =>
    if len first =? 0 then
      if i <? retries then
        let t := fmt_Println (Kind_String errors.PhraseIsEmpty) t in
        ReadAndConfirmPhrase_loop fuel retries ((i + 1) mod 2 ^ 32) t
      else Some (t, ([], Some (E errors.PhraseIsEmpty op None)))
    else
      let t := fmt_Print (Message_String PhraseConfirm ++ " ")%string t in
      let '(t, (second, err)) := ReadPhrase false t in
      let t := fmt_Println "" t in
      match err with
      | Some err => Some (t, ([], Some (E errors.PhraseOther op (Some err))))
      | None =>
      if bytes_Equal first second then Some (t, (first, None))
      else
        let t :=
          if i <? retries
          then fmt_Println (Kind_String errors.PhraseMismatch) t
          else t in
        Some (t, ([], Some (E errors.PhraseMismatch op None)))
      end
    end
  else Some (t, ([], Some (E errors.PhraseMismatch op None)))
  end.

(** [ReadAndConfirmPhrase(retries)], [retries] being a [uint32].  An
    iteration is repeated only while [i < retries], so [retries] iterations
    and one more always suffice. *)
Definition ReadAndConfirmPhrase (retries : Z) (t : Terminal)
  : option (Terminal * (bytes * option error)) :=
  ReadAndConfirmPhrase_loop (S (Z.to_nat retries)) retries 1 t.

(** ** decrypter.go: Init *)

Section DecrypterInit.

Context {P : Primitives}.

(** [Decrypter.Init(secretPhrase, salt, nonce, ciphertext)]. *)
Definition Decrypter_Init (secretPhrase : bytes)
    (salt_ nonce_ ciphertext_ : option bytes) (d : celo)
  : celo * option error :=
  let op := "decrypter.Init" in
  if negb (len (bytes_of salt_) =? saltSize d) then
    (d, Some (E errors.SaltSize op None))
  else if negb (len (bytes_of nonce_) =? nonceSize d) then
    (d, Some (E errors.NonceSize op None))
  else
    let d := set_salt d salt_ in
    let d := set_nonce d nonce_ in
    let '(c, err) :=
      NewCipher (blockSize d) (nonceSize d)
        (GenerateKey secretPhrase (bytes_of (salt d)) (uint32 (blockSize d))) in
    match err with
    | Some err => (d, Some err)
    | None =>
        let d := set_cipher d c in
        let d := set_ciphertext d ciphertext_ in
        (set_initialized d true, None)
    end.

End DecrypterInit.

(** ** The operating system

    The calls of [os] and of [*os.File] that file.go, [EncryptFile] and
    [DecryptFile] make are an interface over a file-system state.  A file
    handle is the name it was opened or created under, which is what
    [f.Name()] returns; a file opened for reading is the [Reader] of its
    bytes. *)

Class OS : Type := {
  FS : Type;
  (** [os.Stat(name)]: [inl isDir] for the [FileInfo], or the error *)
  os_Stat : string -> FS -> bool + error;
  os_IsNotExist : error -> bool;
  os_IsPermission : error -> bool;
  (** [os.Open(name)] *)
  os_Open : string -> FS -> Reader + error;
  (** [os.Create(name)] *)
  os_Create : string -> FS -> FS * option error;
  (** [f.Write(p)] on a created file *)
  file_Write : string -> FS -> bytes -> FS * (Z * option error);
  (** [os.Remove(name)]; its result is never looked at *)
  os_Remove : string -> FS -> FS
}.

(** [Encrypter.Write] for any [io.Writer], given as its state and its
    [Write]; [Encrypter_Write] is the instance at [Sink]. *)
Definition Encrypter_Write_to {W : Type}
    (write : W -> bytes -> W * (Z * option error)) (e : celo) (w : W)
  : option (W * (Z * option error)) :=
  let op := "encrypter.Write" in
  let n := 0 in
  if negb (IsReady e) then Some (w, (0, Some (E errors.NotReady op None)))
  else
    let sn := 0 in
    let nn := 0 in
    let cn := 0 in
    match metadata e with
    | None => None
    | Some m =>
    let '(w, (sn', err)) := write w (Metadata_Bytes m) in
    match err with
    | Some err => Some (w, (sn', Some (E errors.Encode op (Some err))))
    | None =>
    let '(w, (n', err)) := write w (bytes_of (salt e)) in
    match err with
    | Some err => Some (w, (n' + sn, Some (E errors.Encode op (Some err))))
    | None =>
    let n := n + sn in
    let '(w, (nn', err)) := write w (bytes_of (nonce e)) in
    match err with
    | Some err => Some (w, (n + nn', Some (E errors.Encode op (Some err))))
    | None =>
    let n := n + nn in
    let '(w, (cn', err)) := write w (bytes_of (ciphertext e)) in
    match err with
    | Some err => Some (w, (n + cn', Some (E errors.Encode op (Some err))))
    | None => Some (w, (n + cn, None))
    end end end end end.

Section Files.

Context {P : Primitives} {O : OS}.

(** ** file/file.go: Create *)

(** [file.Create(name, overwrite)]; the file returned is its name. *)
Definition file_Create (name : string) (overwrite : bool) (fs : FS)
  : FS * (option string * bool * option error) :=
  let op := "file.Create" in
  let create (existed : bool) :=
    let '(fs, err) := os_Create name fs in
    match err with
    | Some err => (fs, (None, existed, Some (E errors.Create op (Some err))))
    | None => (fs, (Some name, existed, None))
    end in
  match os_Stat name fs with
  | inr err =>
      let existed := negb (os_IsNotExist err) in
      if os_IsNotExist err then create existed
      else if os_IsPermission err then
        (fs, (None, existed, Some (E errors.Permissions op (Some err))))
      else (fs, (None, existed, Some (E errors.Permissions op (Some err))))
  | inl isDir =>
      let existed := false in
      if isDir then (fs, (None, existed, Some (E errors.IsDir op None)))
      else if negb overwrite then
        (fs, (None, existed, Some (E errors.Exist op None)))
      else create existed
  end.

(** ** encrypter.go: EncryptFile and EncryptMultipleFiles *)

(** What the file operations thread: the session, the entropy source and
    the file system. *)
Definition World : Type := (celo * Reader * FS)%type.

Definition EncryptFile (secretPhrase : bytes) (name : string)
    (overwrite removeSource : bool) (st : World)
  : option (World * (string * option error)) :=
  let op := "encrypter.EncryptFile" in
  let '(e, rnd, fs) := st in
  match os_Open name fs with
  | inr err => Some (e, rnd, fs, ("", Some (E errors.Open op (Some err))))
  | inl sourceFile =>
  let '(_, (plaintext, err)) := ReadAll sourceFile in
  match err with
  | Some err => Some (e, rnd, fs, ("", Some (E errors.Plaintext op (Some err))))
  | None =>
  match Encrypter_Encrypt secretPhrase plaintext e rnd with
  | None => None
  | Some (e, rnd, (_, Some err)) => Some (e, rnd, fs, ("", Some err))
  | Some (e, rnd, (_, None)) =>
  let encryptedName := GetEncryptedFileName e name in
  let '(fs, (encryptedFile, existed, err)) :=
    file_Create encryptedName overwrite fs in
  match err, encryptedFile with
  | Some err, _ => Some (e, rnd, fs, ("", Some err))
  | None, None => None
  | None, Some encryptedFile =>
  match Encrypter_Write_to (file_Write encryptedFile) e fs with
  | None => None
  | Some (fs, (_, Some err)) =>
      let fs := if negb existed then os_Remove encryptedFile fs else fs in
      Some (e, rnd, fs, ("", Some err))
  | Some (fs, (_, None)) =>
      let fs := if removeSource then os_Remove name fs else fs in
      Some (e, rnd, fs, (encryptedName, None))
  end end end end end.

(** The [range] loop of [EncryptMultipleFiles] over the names still to
    do, with the two slices built so far. *)
Fixpoint EncryptMultipleFiles_loop (secretPhrase : bytes)
    (fileNames : list string) (overwrite removeSource : bool) (st : World)
    (encryptedFileNames : list string) (errs : list error)
  : option (World * (list string * list error)) :=
  match fileNames with
  | [] => Some (st, (encryptedFileNames, errs))
  | sourceFile :: rest =>
      match EncryptFile secretPhrase sourceFile overwrite removeSource st with
      | None => None
      | Some (st, (encryptedName, Some err)) =>
          EncryptMultipleFiles_loop secretPhrase rest overwrite removeSource st
            encryptedFileNames
            (errs ++ [E_Entity errors.Encrypt "encrypter.EncryptMultipleFiles"
                        sourceFile (Some err)])
      | Some (st, (encryptedName, None)) =>
          EncryptMultipleFiles_loop secretPhrase rest overwrite removeSource st
            (encryptedFileNames ++ [encryptedName]) errs
      end
  end.

Definition EncryptMultipleFiles (secretPhrase : bytes)
    (fileNames : list string) (overwrite removeSource : bool) (st : World)
  : option (World * (list string * list error)) :=
  EncryptMultipleFiles_loop secretPhrase fileNames overwrite removeSource st
    [] [].

(** ** decrypter.go: DecryptFile and DecryptMultipleFiles *)

Definition DecryptFile (secretPhrase : bytes) (name : string)
    (overwrite removeSource : bool) (st : celo * FS)
  : option (celo * FS * (string * option error)) :=
  let op := "decrypter.DecryptFile" in
  let '(d, fs) := st in
  match os_Open name fs with
  | inr err => Some (d, fs, ("", Some (E errors.Open op (Some err))))
  | inl encryptedFile =>
  match Decrypter_Read d encryptedFile with
  | None => None
  | Some (d, _, (_, Some err)) => Some (d, fs, ("", Some err))
  | Some (d, _, (_, None)) =>
  match Decrypter_Decrypt secretPhrase d with
  | None => None
  | Some (d, (_, Some err)) => Some (d, fs, ("", Some err))
  | Some (d, (plaintext, None)) =>
  let decryptedFileName := GetDecryptedFileName d name in
  let '(fs, (decryptedFile, existed, err)) :=
    file_Create decryptedFileName overwrite fs in
  match err, decryptedFile with
  | Some err, _ => Some (d, fs, ("", Some err))
  | None, None => None
  | None, Some decryptedFile =>
  let '(fs, (_, err)) := file_Write decryptedFile fs plaintext in
  match err with
  | Some err =>
      let fs := if negb existed then os_Remove decryptedFile fs else fs in
      Some (d, fs, ("", Some (E errors.Create op (Some err))))
  | None =>
      let fs := if removeSource then os_Remove name fs else fs in
      Some (d, fs, (decryptedFileName, None))
  end end end end end.

Fixpoint DecryptMultipleFiles_loop (secretPhrase : bytes)
    (fileNames : list string) (overwrite removeSource : bool)
    (st : celo * FS) (decryptedFileNames : list string) (errs : list error)
  : option (celo * FS * (list string * list error)) :=
  match fileNames with
  | [] => Some (st, (decryptedFileNames, errs))
  | eFileName :: rest =>
      match DecryptFile secretPhrase eFileName overwrite removeSource st with
      | None => None
      | Some (st, (decryptedName, Some err)) =>
          DecryptMultipleFiles_loop secretPhrase rest overwrite removeSource st
            decryptedFileNames
            (errs ++ [E_Entity errors.Decrypt "decrypter.DecryptMultipleFiles"
                        eFileName (Some err)])
      | Some (st, (decryptedName, None)) =>
          DecryptMultipleFiles_loop secretPhrase rest overwrite removeSource st
            (decryptedFileNames ++ [decryptedName]) errs
      end
  end.

Definition DecryptMultipleFiles (secretPhrase : bytes)
    (fileNames : list string) (overwrite removeSource : bool) (st : celo * FS)
  : option (celo * FS * (list string * list error)) :=
  DecryptMultipleFiles_loop secretPhrase fileNames overwrite removeSource st
    [] [].

End Files.

(** ** cmd/celo: the arguments of the command line *)

Definition isFlag (arg : string) : bool := HasPrefix arg "-".


(** [extractSources]: the arguments up to the first flag, and how many. *)
Fixpoint extractSources_loop (args : list string) (files : list string)
    (found : Z) : list string * Z :=
  match args with
  | [] => (files, found)
  | arg :: rest =>
      if isFlag arg then (files, found)
      else extractSources_loop rest (files ++ [arg]) (found + 1)
  end.

Definition extractSources (args : list string) : list string * Z :=
  extractSources_loop args [] 0.

Section CommandLine.

(** [errors.Errorf(format)]: an [errorString], which is not one of the
    errors above; only its presence matters here. *)
Variable Errorf : string -> error.


End CommandLine.

(** ** A stand-in for the primitives

    A small deterministic instance of [Primitives], to run the sessions on
    concrete inputs: the key is cut out of phrase and salt, the sealed text
    is the plaintext followed by a 16-byte tag cut out of key and nonce. *)

Module Double.

Definition IDKey (password salt : bytes) (time memory threads keyLen : Z)
  : bytes :=
  firstn (Z.to_nat keyLen) ((password ++ salt) ++ repeat x00 (Z.to_nat keyLen)).

Definition tag (key nonce : bytes) : bytes :=
  firstn 16 ((key ++ nonce) ++ repeat x00 16).

Definition Seal (key nonce plaintext data : bytes) : bytes :=
  plaintext ++ tag key nonce.

Definition Open (key nonce ciphertext data : bytes) : option bytes :=
  let k := (List.length ciphertext - 16)%nat in
  if (16 <=? List.length ciphertext)%nat
     && bytes_Equal (skipn k ciphertext) (tag key nonce)
  then Some (firstn k ciphertext)
  else None.

#[export] Instance prims : Primitives := {
  argon2_IDKey := IDKey;
  gcm_Seal := Seal;
  gcm_Open := Open
}.

End Double.

(** ** Concrete inputs and sessions *)

Definition phrase_ok : bytes := list_byte_of_string "pw".
Definition phrase_wrong : bytes := list_byte_of_string "xw".
Definition plain_hello : bytes := list_byte_of_string "hello".

(** Fifty bytes of entropy: enough for one salt and one nonce. *)
Definition entropy50 : Reader :=
  map (fun n => byte_of_Z (Z.of_nat n + 65)) (seq 0 50).

(** An unbounded, empty sink, such as a fresh [bytes.Buffer]. *)
Definition buffer : Sink := mkSink [] None.

(** A default Encrypter with the preserve-key flag set; the flag is a
    field of the package, set from inside it. *)
Definition NewEncrypter_preserving : celo :=
  mkCelo (Some newCurrentMetadata) Aes256BlockSize SaltSize NonceSize
    None None None None Extension true false.

(** The session a run returns, or the session it started from when the run
    panicked. *)
Definition session_after {A : Type} (start : celo) (run : option (celo * A))
  : celo :=
  match run with
  | Some (c, _) => c
  | None => start
  end.


Definition encrypter_hello : celo :=
  session_after NewEncrypter
    (option_map (fun '(e, rnd, res) => (e, (rnd, res)))
       (Encrypter_Encrypt (P:=Double.prims) phrase_ok plain_hello
          NewEncrypter entropy50)).

(** The envelope [encrypter_hello] writes to an empty buffer. *)
Definition envelope_hello : bytes :=
  match Encrypter_Write encrypter_hello buffer with
  | Some (w, _) => written w
  | None => []
  end.

(** The default Decrypter after [Read] of that envelope, and then after a
    [Decrypt] with another phrase than the one used to encrypt. *)
Definition decrypter_loaded : celo :=
  session_after NewDecrypter
    (option_map (fun '(d, r, res) => (d, (r, res)))
       (Decrypter_Read NewDecrypter envelope_hello)).

Definition decrypter_after_wrong_phrase : celo :=
  session_after decrypter_loaded
    (Decrypter_Decrypt (P:=Double.prims) phrase_wrong decrypter_loaded).

(** ** A stand-in for the operating system

    A small file system to run the file operations on: regular files with
    their bytes, directories by name, and a count of free bytes that makes
    a write fall short. *)

Module Disk.

Record State : Type := mkState {
  files : list (string * bytes);
  dirs : list string;
  free : nat
}.

Fixpoint lookup (name : string) (fs : list (string * bytes)) : option bytes :=
  match fs with
  | [] => None
  | (n, b) :: rest => if (n =? name)%string then Some b else lookup name rest
  end.

Fixpoint remove (name : string) (fs : list (string * bytes))
  : list (string * bytes) :=
  match fs with
  | [] => []
  | (n, b) :: rest =>
      if (n =? name)%string then remove name rest else (n, b) :: remove name rest
  end.

Definition errNotExist (name : string) : error :=
  Error name "stat" errors.NotExist None.

Definition errIsDir (name : string) : error :=
  Error name "open" errors.IsDir None.

Definition IsNotExist (e : error) : bool :=
  match e with
  | Error _ _ errors.NotExist _ => true
  | _ => false
  end.

Definition IsPermission (e : error) : bool :=
  match e with
  | Error _ _ errors.Permissions _ => true
  | _ => false
  end.

Definition is_dir (name : string) (s : State) : bool :=
  existsb (String.eqb name) (dirs s).

Definition Stat (name : string) (s : State) : bool + error :=
  if is_dir name s then inl true
  else match lookup name (files s) with
       | Some _ => inl false
       | None => inr (errNotExist name)
       end.

Definition Open (name : string) (s : State) : Reader + error :=
  if is_dir name s then inr (errIsDir name)
  else match lookup name (files s) with
       | Some b => inl b
       | None => inr (errNotExist name)
       end.

Definition Create (name : string) (s : State) : State * option error :=
  if is_dir name s then (s, Some (errIsDir name))
  else (mkState ((name, []) :: remove name (files s)) (dirs s) (free s), None).

Definition Write (name : string) (s : State) (p : bytes)
  : State * (Z * option error) :=
  let old := bytes_of (lookup name (files s)) in
  if (List.length p <=? free s)%nat
  then (mkState ((name, old ++ p) :: remove name (files s)) (dirs s)
          (free s - List.length p),
        (len p, None))
  else (mkState ((name, old ++ firstn (free s) p) :: remove name (files s))
          (dirs s) 0,
        (Z.of_nat (free s), Some io_ErrShortWrite)).

Definition Remove (name : string) (s : State) : State :=
  mkState (remove name (files s)) (dirs s) (free s).

#[export] Instance os : OS := {
  FS := State;
  os_Stat := Stat;
  os_IsNotExist := IsNotExist;
  os_IsPermission := IsPermission;
  os_Open := Open;
  os_Create := Create;
  file_Write := Write;
  os_Remove := Remove
}.

End Disk.

(** A disk with the draft to encrypt, a directory and room for 1000 bytes,
    and the same disk with room for 40 bytes only. *)
Definition disk_draft : Disk.State :=
  Disk.mkState [("book_draft.md", plain_hello)] ["notes"] 1000.

Definition disk_full : Disk.State :=
  Disk.mkState [("book_draft.md", plain_hello)] ["notes"] 40.

(** [disk_draft] after [EncryptFile] of the draft by a default Encrypter,
    source kept. *)
Definition disk_encrypted : Disk.State :=
  Eval vm_compute in
  match EncryptFile (P:=Double.prims) (O:=Disk.os) phrase_ok "book_draft.md"
          false false (NewEncrypter, entropy50, disk_draft) with
  | Some (_, _, fs, _) => fs
  | None => disk_draft
  end.

(** A terminal on which the phrase is typed and confirmed after one empty
    line, and one on which the confirmation differs. *)
Definition terminal_confirmed : Terminal :=
  mkTerminal [inl []; inl phrase_ok; inl phrase_ok] "".

Definition terminal_mismatch : Terminal :=
  mkTerminal [inl phrase_ok; inl phrase_wrong; inl phrase_ok; inl phrase_ok] "".

(** ** Vocabulary of the statements *)

(** The sink takes [n] more bytes. *)
Definition accepts (w : Sink) (n : nat) : Prop :=
  match room w with
  | None => True
  | Some k => (n <= k)%nat
  end.

(** The sink after it took [p]. *)
Definition fed (w : Sink) (p : bytes) : Sink :=
  mkSink (written w ++ p)
    (match room w with
     | None => None
     | Some k => Some (k - List.length p)%nat
     end).

(** The extension starts with the separator. *)
Definition starts_with_dot (e : string) : bool :=
  match e with
  | String "."%char _ => true
  | _ => false
  end.

(** The suffix the naming helpers work with: the extension behind exactly
    one leading separator. *)
Definition suffix_of (e : string) : string :=
  if starts_with_dot e then e else String "."%char e.

(** The error is one of the package's, of one of the kinds [ks], none of
    which is [Other]. *)
Definition of_kind (ks : list errors.Kind) (err : error) : Prop :=
  exists ent op k inner,
    err = Error ent op k inner /\ k <> errors.Other /\ In k ks.

(** * Properties *)

(** ** Byte slices, readers and sinks *)

Lemma bytes_Equal_refl (a : bytes) : bytes_Equal a a = true.
Proof.
  induction a as [|x a IH]; simpl; [reflexivity|].
  rewrite IH, andb_true_r. now apply Byte.byte_dec_lb.
Qed.

Lemma bytes_Equal_eq (a b : bytes) : bytes_Equal a b = true <-> a = b.
Proof.
  split.
  - revert b; induction a as [|x a IH]; intros [|y b] H; simpl in H;
      try discriminate; [reflexivity|].
    apply andb_true_iff in H as [Hx Hab].
    apply Byte.byte_dec_bl in Hx. f_equal; auto.
  - intros ->. apply bytes_Equal_refl.
Qed.

Lemma len_app (a b : bytes) : len (a ++ b) = len a + len b.
Proof. unfold len. rewrite length_app. lia. Qed.

Lemma ReadFull_enough (r : Reader) (n : nat) :
  (n <= List.length r)%nat ->
  ReadFull r n = (skipn n r, (firstn n r, Z.of_nat n, None)).
Proof.
  intros H. unfold ReadFull.
  destruct (Nat.leb_spec n (List.length r)); [reflexivity | lia].
Qed.

Lemma ReadFull_app (a r : bytes) :
  ReadFull (a ++ r) (List.length a) = (r, (a, len a, None)).
Proof.
  rewrite ReadFull_enough by (rewrite length_app; lia).
  rewrite skipn_app, firstn_app, Nat.sub_diag, skipn_all, firstn_all.
  simpl. now rewrite app_nil_r.
Qed.

Lemma ReadFull_prefix (a r : bytes) (n : nat) :
  List.length a = n -> ReadFull (a ++ r) n = (r, (a, Z.of_nat n, None)).
Proof. intros <-. apply ReadFull_app. Qed.

Lemma ReadFull_short (r : Reader) (n : nat) :
  (List.length r < n)%nat ->
  exists buf err, ReadFull r n = ([], (buf, len r, Some err)).
Proof.
  intros H. unfold ReadFull.
  destruct (Nat.leb_spec n (List.length r)); [lia | eauto].
Qed.

(** A successful [ReadFull] took its [n] bytes off the front. *)
Lemma ReadFull_ok_inv (r r' : Reader) (n : nat) (buf : bytes) (k : Z) :
  ReadFull r n = (r', (buf, k, None)) ->
  r = buf ++ r' /\ List.length buf = n /\ k = Z.of_nat n.
Proof.
  unfold ReadFull.
  destruct (Nat.leb_spec n (List.length r)) as [Hle|Hlt]; [|discriminate].
  intros H; injection H as <- <- <-.
  rewrite firstn_skipn, length_firstn. repeat split; lia.
Qed.

Lemma Sink_Write_ok (w : Sink) (p : bytes) :
  accepts w (List.length p) -> Sink_Write w p = (fed w p, (len p, None)).
Proof.
  unfold accepts, Sink_Write, fed. destruct (room w) as [k|]; [|reflexivity].
  intros H. destruct (Nat.leb_spec (List.length p) k); [reflexivity | lia].
Qed.

Lemma accepts_fed (w : Sink) (p : bytes) (n : nat) :
  accepts w (List.length p + n) -> accepts (fed w p) n.
Proof. unfold accepts, fed; simpl. destruct (room w); [lia | trivial]. Qed.

Lemma accepts_le (w : Sink) (n m : nat) :
  (n <= m)%nat -> accepts w m -> accepts w n.
Proof. unfold accepts. destruct (room w); [lia | trivial]. Qed.

(** ** The stand-in satisfies the laws *)

Lemma Double_tag_length (key nonce : bytes) :
  List.length (Double.tag key nonce) = 16%nat.
Proof.
  unfold Double.tag. rewrite length_firstn, length_app, repeat_length. lia.
Qed.

#[export] Instance Double_laws : PrimitivesLaws Double.prims.
Proof.
  split.
  - intros password salt time memory threads keyLen Hk. simpl.
    unfold Double.IDKey, len.
    rewrite length_firstn, length_app, repeat_length. lia.
  - intros key nonce plaintext data _ _.
    cbn [gcm_Open gcm_Seal Double.prims]. unfold Double.Open, Double.Seal.
    rewrite length_app, Double_tag_length.
    replace (List.length plaintext + 16 - 16)%nat with (List.length plaintext) by lia.
    rewrite skipn_app, firstn_app, Nat.sub_diag, skipn_all, firstn_all.
    cbn [skipn firstn app]. rewrite bytes_Equal_refl, app_nil_r, andb_true_r.
    replace (16 <=? List.length plaintext + 16)%nat with true; [reflexivity|].
    symmetry. apply Nat.leb_le. lia.
Qed.

(** ** Strings *)

Lemma substring_all (s : string) : substring 0 (String.length s) s = s.
Proof. induction s as [|c s IH]; simpl; [reflexivity | now rewrite IH]. Qed.

Lemma substring_0_app (a b : string) :
  substring 0 (String.length a) (a ++ b)%string = a.
Proof.
  induction a as [|c a IH]; simpl.
  - now destruct b.
  - now rewrite IH.
Qed.

Lemma substring_skip_app (a b : string) :
  substring (String.length a) (String.length b) (a ++ b)%string = b.
Proof. induction a as [|c a IH]; simpl; [apply substring_all | exact IH]. Qed.

Lemma string_length_app (a b : string) :
  String.length (a ++ b)%string = (String.length a + String.length b)%nat.
Proof. induction a as [|c a IH]; simpl; [reflexivity | now rewrite IH]. Qed.

(** A string is the slice before [n] followed by the slice from [n]. *)
Lemma substring_split (s : string) (n : nat) :
  (n <= String.length s)%nat ->
  s = (substring 0 n s ++ substring n (String.length s - n) s)%string.
Proof.
  revert n; induction s as [|c s IH]; intros [|n] H; simpl in *.
  - reflexivity.
  - lia.
  - now rewrite substring_all.
  - f_equal. apply IH. lia.
Qed.

Lemma app_eq_right_nil (a b : string) : (a ++ b)%string = b -> a = "".
Proof.
  intros H. apply (f_equal String.length) in H.
  rewrite string_length_app in H. destruct a; [reflexivity | simpl in H; lia].
Qed.

Lemma HasPrefix_dot (e : string) : HasPrefix e "." = starts_with_dot e.
Proof.
  destruct e as [|c e]; [reflexivity|]. unfold HasPrefix.
  assert (Hs : substring 0 (String.length ".") (String c e) = String c "")
    by (simpl; now destruct e).
  rewrite Hs. destruct c as [[] [] [] [] [] [] [] []]; reflexivity.
Qed.

Lemma HasSuffix_app (a b : string) : HasSuffix (a ++ b) b = true.
Proof.
  unfold HasSuffix. rewrite string_length_app.
  replace (String.length a + String.length b - String.length b)%nat
    with (String.length a) by lia.
  rewrite substring_skip_app, String.eqb_refl, andb_true_r.
  apply Nat.leb_le. lia.
Qed.

Lemma HasSuffix_inv (s suffix : string) :
  HasSuffix s suffix = true ->
  s = (substring 0 (String.length s - String.length suffix) s ++ suffix)%string.
Proof.
  unfold HasSuffix. intros H. apply andb_true_iff in H as [Hle Heq].
  apply Nat.leb_le in Hle. apply String.eqb_eq in Heq.
  rewrite (@substring_split s (String.length s - String.length suffix)%nat) at 1 by lia.
  replace (String.length s - (String.length s - String.length suffix))%nat
    with (String.length suffix) by lia.
  now rewrite Heq.
Qed.

Lemma TrimSuffix_app (a b : string) : TrimSuffix (a ++ b) b = a.
Proof.
  unfold TrimSuffix. rewrite HasSuffix_app, string_length_app.
  replace (String.length a + String.length b - String.length b)%nat
    with (String.length a) by lia.
  apply substring_0_app.
Qed.

(** ** celo.go: Wipe and the naming helpers *)

(** C8.  For every session state, [Wipe] leaves nonce, ciphertext, salt and
    the cached cipher nil and the initialized flag false, and does not touch
    the configured salt size, block size, nonce size and extension. *)
Theorem Wipe_clears_values_keeps_configuration (c : celo) :
  nonce (Wipe c) = None /\
  ciphertext (Wipe c) = None /\
  salt (Wipe c) = None /\
  cipher (Wipe c) = None /\
  initialized (Wipe c) = false /\
  saltSize (Wipe c) = saltSize c /\
  blockSize (Wipe c) = blockSize c /\
  nonceSize (Wipe c) = nonceSize c /\
  ext (Wipe c) = ext c.
Proof. unfold Wipe. repeat split. Qed.

(** What [Wipe] leaves alone besides the sizes and the extension. *)
Lemma Wipe_frame (c : celo) :
  metadata (Wipe c) = metadata c /\ preserveKey (Wipe c) = preserveKey c.
Proof. split; reflexivity. Qed.

Lemma Wipe_idempotent (c : celo) : Wipe (Wipe c) = Wipe c.
Proof. reflexivity. Qed.

(** The local [ext] of both helpers is [suffix_of] of the configured
    extension. *)
Lemma dotted_ext (e : string) :
  (if negb (HasPrefix e ".") then ("." ++ e)%string else e) = suffix_of e.
Proof. rewrite HasPrefix_dot. unfold suffix_of. now destruct (starts_with_dot e). Qed.

Lemma GetDecryptedFileName_strips (c : celo) (base : string) :
  ext c <> "" -> base <> "" ->
  GetDecryptedFileName c (base ++ suffix_of (ext c)) = base.
Proof.
  intros Hext Hbase. unfold GetDecryptedFileName.
  destruct (String.eqb_spec (ext c) "") as [He|_]; [contradiction|].
  rewrite dotted_ext, HasSuffix_app, TrimSuffix_app.
  destruct (String.eqb_spec (base ++ suffix_of (ext c)) (suffix_of (ext c)))
    as [Heq|_]; [|reflexivity].
  apply app_eq_right_nil in Heq. contradiction.
Qed.

Lemma GetDecryptedFileName_keeps (c : celo) (name : string) :
  (forall base, base <> "" -> name <> (base ++ suffix_of (ext c))%string) ->
  GetDecryptedFileName c name = name.
Proof.
  intros Hno. unfold GetDecryptedFileName.
  destruct (String.eqb_spec (ext c) "") as [_|_]; [reflexivity|].
  rewrite dotted_ext.
  destruct (HasSuffix name (suffix_of (ext c))) eqn:Hs; [|reflexivity].
  destruct (String.eqb_spec name (suffix_of (ext c))) as [_|Hne]; [reflexivity|].
  exfalso. apply HasSuffix_inv in Hs.
  apply (Hno (substring 0 (String.length name
                           - String.length (suffix_of (ext c))) name)); [|exact Hs].
  intros Hbase. rewrite Hbase in Hs. now apply Hne.
Qed.

(** C9.  With a non-empty extension, the encrypted name is the name
    followed by the extension behind one separator (a separator is added
    only when the extension does not start with one); the decrypted name is
    the name without that suffix exactly when the name is a non-empty base
    followed by the suffix, and the name itself otherwise, in particular
    for the bare suffix.  With the extension "celo":
    "book_draft.md" gives "book_draft.md.celo", "book_draft.md.celo" gives
    back "book_draft.md", and "celo" stays "celo". *)
Theorem file_name_helpers (c : celo) (name : string) :
  ext c <> "" ->
  GetEncryptedFileName c name = (name ++ suffix_of (ext c))%string /\
  (forall base, base <> "" -> name = (base ++ suffix_of (ext c))%string ->
     GetDecryptedFileName c name = base) /\
  ((forall base, base <> "" -> name <> (base ++ suffix_of (ext c))%string) ->
     GetDecryptedFileName c name = name) /\
  GetDecryptedFileName c (suffix_of (ext c)) = suffix_of (ext c) /\
  (ext c = "celo" ->
     suffix_of (ext c) = ".celo" /\
     GetEncryptedFileName c "book_draft.md" = "book_draft.md.celo" /\
     GetDecryptedFileName c "book_draft.md.celo" = "book_draft.md" /\
     GetDecryptedFileName c "celo" = "celo").
Proof.
  intros Hext. repeat split.
  - unfold GetEncryptedFileName.
    destruct (String.eqb_spec (ext c) "") as [He|_]; [contradiction|].
    now rewrite dotted_ext.
  - intros base Hbase ->. now apply GetDecryptedFileName_strips.
  - apply GetDecryptedFileName_keeps.
  - apply GetDecryptedFileName_keeps. intros base Hbase Heq.
    symmetry in Heq. apply app_eq_right_nil in Heq. contradiction.
  - now rewrite H.
  - unfold GetEncryptedFileName. now rewrite H.
  - unfold GetDecryptedFileName. now rewrite H.
  - unfold GetDecryptedFileName. now rewrite H.
Qed.

Lemma file_name_helpers_witness :
  ext NewEncrypter <> "" /\
  GetEncryptedFileName NewEncrypter "book_draft.md" = "book_draft.md.celo" /\
  GetDecryptedFileName NewEncrypter "book_draft.md.celo" = "book_draft.md" /\
  GetDecryptedFileName NewEncrypter "celo" = "celo".
Proof.
  assert (Hext : ext NewEncrypter <> "") by (simpl; discriminate).
  split; [exact Hext|].
  destruct (@file_name_helpers NewEncrypter "book_draft.md" Hext)
    as (_ & _ & _ & _ & Hcelo).
  destruct (Hcelo eq_refl) as (_ & Henc & Hdec & Hbare).
  repeat split; assumption.
Defined.

(** ** metadata.go *)

(** The error of a short [ReadFull] is one of the two [io] sentinels. *)
Lemma ReadFull_error_io (r r' : Reader) (n : nat) (buf : bytes) (k : Z)
    (err : error) :
  ReadFull r n = (r', (buf, k, Some err)) ->
  (List.length r < n)%nat /\ k = len r /\
  (err = io_EOF \/ err = io_ErrUnexpectedEOF).
Proof.
  unfold ReadFull.
  destruct (Nat.leb_spec n (List.length r)) as [Hle|Hlt]; [discriminate|].
  intros H; injection H as <- <- <- <-.
  repeat split; [exact Hlt|]. destruct r; auto.
Qed.

(** A well-formed header in front of the source is decoded, and the count
    returned next to it is zero. *)
Lemma DecodeMetadata_app (sig v res rest : bytes) :
  List.length sig = 8%nat -> List.length v = 4%nat -> List.length res = 20%nat ->
  ValidateMetadata sig v res = None ->
  DecodeMetadata (sig ++ v ++ res ++ rest)
  = (rest, (Some (mkMetadata sig v res), 0, None)).
Proof.
  intros Hs Hv Hr Hvalid. unfold DecodeMetadata.
  rewrite (@ReadFull_prefix _ _ _ Hs), (@ReadFull_prefix _ _ _ Hv),
    (@ReadFull_prefix _ _ _ Hr).
  now rewrite Hvalid.
Qed.

(** A source of fewer than 32 bytes is refused with a Metadata error. *)
Lemma DecodeMetadata_short (r : Reader) :
  (List.length r < 32)%nat ->
  exists r' n err,
    DecodeMetadata r = (r', (None, n, Some err)) /\
    Is errors.Metadata err = true.
Proof.
  intros Hlen. unfold DecodeMetadata.
  destruct (ReadFull r 8) as [r1 [[sig n1] [e1|]]] eqn:H1.
  { apply ReadFull_error_io in H1 as (_ & _ & [-> | ->]); eauto. }
  apply ReadFull_ok_inv in H1 as (-> & Hs & _).
  destruct (ReadFull r1 4) as [r2 [[v n2] [e2|]]] eqn:H2.
  { apply ReadFull_error_io in H2 as (_ & _ & [-> | ->]); eauto. }
  apply ReadFull_ok_inv in H2 as (-> & Hv & _).
  destruct (ReadFull r2 20) as [r3 [[res n3] [e3|]]] eqn:H3.
  { apply ReadFull_error_io in H3 as (_ & _ & [-> | ->]); eauto. }
  apply ReadFull_ok_inv in H3 as (-> & Hr & _).
  rewrite !length_app in Hlen. lia.
Qed.

(** C3.  Whenever [DecodeMetadata] succeeds it has taken exactly 32 bytes
    off the source, the 8 signature, 4 size and 20 reserved bytes of the
    header it returns, and the count it returns is 0, not 32. *)
Theorem DecodeMetadata_success_count (r r' : Reader) (m : Metadata) (n : Z) :
  DecodeMetadata r = (r', (Some m, n, None)) ->
  r = signature m ++ vsbn m ++ reserved m ++ r' /\
  len r = 32 + len r' /\
  n = 0.
Proof.
  unfold DecodeMetadata.
  destruct (ReadFull r 8) as [r1 [[sig n1] [e1|]]] eqn:H1; [discriminate|].
  destruct (ReadFull r1 4) as [r2 [[v n2] [e2|]]] eqn:H2; [discriminate|].
  destruct (ReadFull r2 20) as [r3 [[res n3] [e3|]]] eqn:H3; [discriminate|].
  destruct (ValidateMetadata sig v res); [discriminate|].
  intros H; injection H as <- <- <-.
  apply ReadFull_ok_inv in H1 as (-> & Hs & _).
  apply ReadFull_ok_inv in H2 as (-> & Hv & _).
  apply ReadFull_ok_inv in H3 as (-> & Hr & _).
  cbn [signature vsbn reserved]. repeat split.
  rewrite !len_app. unfold len. rewrite Hs, Hv, Hr. lia.
Qed.

Lemma DecodeMetadata_success_count_witness :
  DecodeMetadata (Metadata_Bytes newCurrentMetadata)
  = ([], (Some newCurrentMetadata, 0, None)) /\
  len (Metadata_Bytes newCurrentMetadata) = 32.
Proof.
  assert (H : DecodeMetadata (Metadata_Bytes newCurrentMetadata)
              = ([], (Some newCurrentMetadata, 0, None))) by reflexivity.
  split; [exact H|].
  destruct (DecodeMetadata_success_count _ _ _ _ H) as (_ & Hlen & _).
  exact Hlen.
Defined.

(** [ValidateMetadata], case by case.  The block-size case answers with
    the kind [NonceSize]. *)
Lemma ValidateMetadata_cases (sig v res : bytes) :
  ValidateMetadata sig v res =
    if negb (bytes_Equal sig signatureHeader)
    then Some (Error "" "metadata.ValidateMetadata" errors.Signature None)
    else if negb (byte_val (byte_at v versionIndex) =? 1)
    then Some (Error "" "metadata.ValidateMetadata" errors.Incompatible None)
    else if negb ((byte_val (byte_at v blockSizeIndex) =? 16)
                  || (byte_val (byte_at v blockSizeIndex) =? 32))
    then Some (Error "" "metadata.ValidateMetadata" errors.NonceSize None)
    else if 32 <? byte_val (byte_at v nonceSizeIndex)
    then Some (Error "" "metadata.ValidateMetadata" errors.NonceSize None)
    else None.
Proof.
  unfold ValidateMetadata, MinVersion, MaxVersion.
  change (byte_val x01) with 1.
  destruct (bytes_Equal sig signatureHeader); simpl; [|reflexivity].
  replace ((byte_val (byte_at v versionIndex) <? 1)
           || (byte_val (byte_at v versionIndex) >? 1))
    with (negb (byte_val (byte_at v versionIndex) =? 1))
    by (rewrite Z.gtb_ltb;
        destruct (Z.eqb_spec (byte_val (byte_at v versionIndex)) 1),
                 (Z.ltb_spec (byte_val (byte_at v versionIndex)) 1),
                 (Z.ltb_spec 1 (byte_val (byte_at v versionIndex)));
        simpl; try reflexivity; lia).
  destruct (negb (byte_val (byte_at v versionIndex) =? 1)); [reflexivity|].
  rewrite negb_orb, Z.gtb_ltb. reflexivity.
Qed.

(** C4.  A header with the magic signature and a supported version whose
    block-size byte is neither 16 nor 32 is refused with the kind
    [NonceSize]; the answer is not a [BlockSize] error. *)
Theorem ValidateMetadata_block_size_kind (v s b n : byte) (res : bytes) :
  byte_val MinVersion <= byte_val v <= byte_val MaxVersion ->
  byte_val b <> 16 -> byte_val b <> 32 ->
  ValidateMetadata signatureHeader [v; s; b; n] res
  = Some (Error "" "metadata.ValidateMetadata" errors.NonceSize None) /\
  fails_with errors.BlockSize
    (ValidateMetadata signatureHeader [v; s; b; n] res) = false.
Proof.
  intros Hv H16 H32.
  assert (H : ValidateMetadata signatureHeader [v; s; b; n] res
              = Some (Error "" "metadata.ValidateMetadata" errors.NonceSize None)).
  { rewrite ValidateMetadata_cases. simpl bytes_Equal. cbn [negb].
    unfold byte_at, versionIndex, blockSizeIndex. cbn [nth].
    change (byte_val MinVersion) with 1 in Hv.
    change (byte_val MaxVersion) with 1 in Hv.
    destruct (Z.eqb_spec (byte_val v) 1); [|lia].
    destruct (Z.eqb_spec (byte_val b) 16); [lia|].
    destruct (Z.eqb_spec (byte_val b) 32); [lia|]. reflexivity. }
  split; [exact H | now rewrite H].
Qed.

Lemma ValidateMetadata_block_size_kind_witness :
  ValidateMetadata signatureHeader [x01; x20; x18; x0c] (repeat x00 20)
  = Some (Error "" "metadata.ValidateMetadata" errors.NonceSize None) /\
  fails_with errors.BlockSize
    (ValidateMetadata signatureHeader [x01; x20; x18; x0c] (repeat x00 20))
  = false.
Proof.
  apply (@ValidateMetadata_block_size_kind x01 x20 x18 x0c (repeat x00 20)).
  - vm_compute. split; discriminate.
  - vm_compute. discriminate.
  - vm_compute. discriminate.
Defined.

(** ** encrypter.go *)

Lemma Metadata_Bytes_length (m : Metadata) :
  List.length (Metadata_Bytes m) = 32%nat.
Proof.
  unfold Metadata_Bytes.
  rewrite !length_app, length_firstn, length_app, !repeat_length.
  cbn [List.length]. lia.
Qed.

(** For arrays of the declared sizes, [Bytes] is the signature, the four
    size bytes and twenty zero bytes. *)
Lemma Metadata_Bytes_arrays (m : Metadata) :
  List.length (signature m) = 8%nat -> List.length (vsbn m) = 4%nat ->
  Metadata_Bytes m = signature m ++ vsbn m ++ repeat x00 20.
Proof.
  intros Hs Hv. unfold Metadata_Bytes, byte_at.
  rewrite firstn_app, Hs, Nat.sub_diag, <- Hs, firstn_all, app_nil_r.
  destruct (vsbn m) as [|v [|s [|b [|n [|x l]]]]]; try discriminate Hv.
  reflexivity.
Qed.

Lemma fed_fed (w : Sink) (a b : bytes) : fed (fed w a) b = fed w (a ++ b).
Proof.
  unfold fed; simpl. rewrite <- app_assoc. f_equal.
  destruct (room w); [|reflexivity]. rewrite length_app. f_equal. lia.
Qed.

(** What [Write] does on a ready session whose sink takes the whole
    envelope: the four parts go out in order, and the count is zero. *)
Lemma Encrypter_Write_accepted (e : celo) (m : Metadata) (w : Sink) :
  IsReady e = true ->
  metadata e = Some m ->
  accepts w (List.length (Metadata_Bytes m ++ bytes_of (salt e)
                          ++ bytes_of (nonce e) ++ bytes_of (ciphertext e))) ->
  Encrypter_Write e w
  = Some (fed w (Metadata_Bytes m ++ bytes_of (salt e)
                 ++ bytes_of (nonce e) ++ bytes_of (ciphertext e)),
          (0, None)).
Proof.
  intros Hready Hm Hacc. unfold Encrypter_Write. rewrite Hready, Hm. cbn [negb].
  rewrite !length_app in Hacc.
  rewrite Sink_Write_ok by (eapply accepts_le; [|exact Hacc]; lia).
  apply accepts_fed in Hacc.
  rewrite Sink_Write_ok by (eapply accepts_le; [|exact Hacc]; lia).
  apply accepts_fed in Hacc.
  rewrite Sink_Write_ok by (eapply accepts_le; [|exact Hacc]; lia).
  apply accepts_fed in Hacc.
  rewrite Sink_Write_ok by exact Hacc.
  now rewrite !fed_fed.
Qed.

(** C2.  On a ready Encrypter and a sink whose four writes succeed,
    [Write] puts the 32 metadata bytes, the salt, the nonce and the
    ciphertext on the sink in that order, 32 + len(salt) + len(nonce) +
    len(ciphertext) bytes in all, and the count it returns is 0. *)
Theorem Encrypter_Write_order_and_count (e : celo) (m : Metadata) (w : Sink) :
  IsReady e = true ->
  metadata e = Some m ->
  accepts w (List.length (Metadata_Bytes m ++ bytes_of (salt e)
                          ++ bytes_of (nonce e) ++ bytes_of (ciphertext e))) ->
  exists w',
    Encrypter_Write e w = Some (w', (0, None)) /\
    written w' = written w ++ Metadata_Bytes m ++ bytes_of (salt e)
                 ++ bytes_of (nonce e) ++ bytes_of (ciphertext e) /\
    len (written w') - len (written w)
    = 32 + len (bytes_of (salt e)) + len (bytes_of (nonce e))
      + len (bytes_of (ciphertext e)).
Proof.
  intros Hready Hm Hacc. eexists. split; [|split].
  - exact (@Encrypter_Write_accepted e m w Hready Hm Hacc).
  - reflexivity.
  - cbn [fed written]. rewrite !len_app. unfold len at 2.
    rewrite Metadata_Bytes_length. lia.
Qed.

Lemma Encrypter_Write_order_and_count_witness :
  exists w',
    Encrypter_Write encrypter_hello buffer = Some (w', (0, None)) /\
    written w' = envelope_hello /\
    len (written w') = 97 /\
    32 + saltSize encrypter_hello + nonceSize encrypter_hello
    + len (bytes_of (ciphertext encrypter_hello)) = 97.
Proof.
  destruct (@Encrypter_Write_order_and_count encrypter_hello newCurrentMetadata
              buffer) as (w' & Hw & Hbytes & Hlen).
  - reflexivity.
  - reflexivity.
  - exact I.
  - exists w'. split; [exact Hw|]. split; [|split].
    + rewrite Hbytes. reflexivity.
    + rewrite Hbytes. reflexivity.
    + reflexivity.
Defined.




Section Sessions.

Context {P : Primitives}.

(** Whatever [Init] returns, the session it leaves is marked initialized;
    the preserve-key flag and the configuration are as before. *)
Lemma Encrypter_Init_marks_initialized (phrase : bytes) (e e' : celo)
    (rnd rnd' : Reader) (err : option error) :
  Encrypter_Init phrase e rnd = Some (e', rnd', err) ->
  initialized e' = true /\ preserveKey e' = preserveKey e.
Proof.
  unfold Encrypter_Init.
  destruct (initialized e && preserveKey e) eqn:Hkeep.
  - intros H; injection H as <- <- <-.
    apply andb_true_iff in Hkeep as [Hi _]. now split.
  - destruct (NewSalt (saltSize (set_initialized e true)) rnd)
      as [[rnd1 [[s n] [err1|]]]|]; [| |discriminate].
    + intros H; injection H as <- <- <-. now split.
    + destruct (NewCipher _ _ _) as [c [err2|]];
        intros H; injection H as <- <- <-; now split.
Qed.

(** C6.  When [Init] returns an error, the Encrypter it leaves behind is
    marked initialized: [IsReady] answers true. *)
Theorem Encrypter_Init_failure_is_ready (phrase : bytes) (e e' : celo)
    (rnd rnd' : Reader) (err : error) :
  Encrypter_Init phrase e rnd = Some (e', rnd', Some err) ->
  IsReady e' = true.
Proof.
  intros H. now apply Encrypter_Init_marks_initialized in H as [Hi _].
Qed.

(** C7.  On an Encrypter with the preserve-key flag, once [Init] has
    succeeded, a further [Init], with the same or any other phrase, returns
    no error and gives back the very same session (so the same salt and the
    same cached cipher) and the very same entropy source. *)
Theorem Encrypter_Init_preserveKey (phrase phrase' : bytes) (e e1 : celo)
    (rnd rnd1 : Reader) :
  preserveKey e = true ->
  Encrypter_Init phrase e rnd = Some (e1, rnd1, None) ->
  Encrypter_Init phrase' e1 rnd1 = Some (e1, rnd1, None) /\
  Encrypter_Init phrase e1 rnd1 = Some (e1, rnd1, None).
Proof.
  intros Hkeep H.
  apply Encrypter_Init_marks_initialized in H as [Hi Hp].
  unfold Encrypter_Init. rewrite Hi, Hp, Hkeep. split; reflexivity.
Qed.

End Sessions.

Lemma Encrypter_Init_failure_is_ready_witness :
  exists e' err,
    Encrypter_Init (P:=Double.prims) phrase_ok NewEncrypter []
    = Some (e', [], Some err) /\
    Is errors.Salt err = true /\
    IsReady NewEncrypter = false /\
    IsReady e' = true.
Proof.
  eexists. eexists. split; [reflexivity|]. split; [reflexivity|].
  split; [reflexivity|].
  eapply (@Encrypter_Init_failure_is_ready Double.prims phrase_ok NewEncrypter
            _ [] [] _).
  reflexivity.
Defined.

(** What the flag left by a failed [Init] leads to under preserve-key: the
    next [Init] returns at once, without salt or cipher, and [Encrypt] then
    dereferences the nil cipher. *)
Lemma Encrypter_Encrypt_after_failed_Init :
  exists e' err,
    Encrypter_Init (P:=Double.prims) phrase_ok NewEncrypter_preserving []
    = Some (e', [], Some err) /\
    Encrypter_Init (P:=Double.prims) phrase_ok e' entropy50
    = Some (e', entropy50, None) /\
    salt e' = None /\ cipher e' = None /\
    Encrypter_Encrypt (P:=Double.prims) phrase_ok plain_hello e' entropy50 = None.
Proof. do 2 eexists. repeat split; reflexivity. Qed.

Lemma Encrypter_Init_preserveKey_witness :
  exists e1 rnd1,
    preserveKey NewEncrypter_preserving = true /\
    Encrypter_Init (P:=Double.prims) phrase_ok NewEncrypter_preserving entropy50
    = Some (e1, rnd1, None) /\
    Encrypter_Init (P:=Double.prims) phrase_ok e1 rnd1 = Some (e1, rnd1, None) /\
    List.length rnd1 = 18%nat.
Proof.
  eexists. eexists. split; [reflexivity|]. split; [reflexivity|]. split.
  - eapply (@Encrypter_Init_preserveKey Double.prims phrase_ok phrase_ok
              NewEncrypter_preserving _ entropy50 _).
    + reflexivity.
    + reflexivity.
  - reflexivity.
Defined.

(** ** decrypter.go *)

Section Decrypting.

Context {P : Primitives}.

(** With a cached cipher, [Decrypt] is the cached cipher's [Decrypt] on the
    stored nonce and ciphertext; the phrase does not occur. *)
Lemma Decrypter_Decrypt_cached (phrase : bytes) (d : celo) (c : Cipher) :
  IsReady d = true -> cipher d = Some c ->
  Decrypter_Decrypt phrase d =
    match Cipher_Decrypt c (bytes_of (nonce d)) (bytes_of (ciphertext d)) with
    | None => None
    | Some (_, Some err) => Some (d, ([], Some err))
    | Some (plaintext, None) => Some (d, (plaintext, None))
    end.
Proof.
  intros Hready Hc. unfold Decrypter_Decrypt. rewrite Hready, Hc. cbn [negb].
  now rewrite Hc.
Qed.

(** A session left ready and with a cipher by one [Decrypt] answers every
    later [Decrypt] the same way and is not changed by it. *)
Lemma Decrypter_Decrypt_repeats (pw p : bytes) (d0 d : celo) (c : Cipher)
    (res : bytes * option error) :
  Decrypter_Decrypt pw d0 = Some (d, res) ->
  IsReady d = true -> cipher d = Some c ->
  Decrypter_Decrypt p d = Some (d, res).
Proof.
  intros H Hready Hc. rewrite (Decrypter_Decrypt_cached p d c Hready Hc).
  unfold Decrypter_Decrypt in H.
  destruct (IsReady d0) eqn:Hready0; cbn [negb] in H.
  2:{ injection H as <- <-. congruence. }
  destruct (cipher d0) as [c0|] eqn:Hc0.
  - rewrite Hc0 in H.
    destruct (Cipher_Decrypt c0 _ _) as [[pt [err|]]|] eqn:Hdec;
      try discriminate; injection H as <- <-;
      rewrite Hc0 in Hc; injection Hc as <-; now rewrite Hdec.
  - unfold Decrypter_initCipher in H.
    destruct (NewCipher _ _ _) as [[c1|] [err|]].
    + injection H as <- <-. congruence.
    + cbn [cipher nonce ciphertext set_cipher] in H.
      destruct (Cipher_Decrypt c1 _ _) as [[pt [err|]]|] eqn:Hdec;
        try discriminate; injection H as <- <-;
        cbn [cipher set_cipher] in Hc; injection Hc as <-;
        cbn [nonce ciphertext set_cipher]; now rewrite Hdec.
    + injection H as <- <-. congruence.
    + discriminate.
Qed.

(** A successful [Read] either finds the salt it already holds and keeps
    the cached cipher, or stores a different salt and drops the cipher. *)
Lemma Decrypter_Read_salt_cipher (d d' : celo) (r r' : Reader) (n : Z) :
  Decrypter_Read d r = Some (d', r', (n, None)) ->
  (salt d' = salt d /\ cipher d' = cipher d) \/
  (salt d' <> salt d /\ cipher d' = None).
Proof.
  unfold Decrypter_Read.
  destruct (DecodeMetadata r) as [r1 [[m n1] [err|]]]; [discriminate|].
  destruct (make_bytes (saltSize (set_metadata d m))) as [zs|]; [|discriminate].
  destruct (ReadFull r1 _) as [r2 [[s n2] [err|]]]; [discriminate|].
  cbn [salt set_metadata].
  destruct (match salt d with None => true | Some _ => false end
            || negb (bytes_Equal s (bytes_of (salt d)))) eqn:Hchanged.
  - destruct (make_bytes _) as [zn|]; [|discriminate].
    destruct (ReadFull r2 _) as [r3 [[nb n3] [err|]]]; [discriminate|].
    cbn [ReadAll]. intros H; injection H as <- _ _. right.
    split; [|reflexivity]. cbn [salt set_initialized set_ciphertext set_nonce
                                 set_cipher set_salt].
    destruct (salt d) as [s0|]; [|discriminate].
    cbn [orb bytes_of] in Hchanged. intros Heq; injection Heq as ->.
    now rewrite bytes_Equal_refl in Hchanged.
  - destruct (make_bytes _) as [zn|]; [|discriminate].
    destruct (ReadFull r2 _) as [r3 [[nb n3] [err|]]]; [discriminate|].
    cbn [ReadAll]. intros H; injection H as <- _ _. left. split; reflexivity.
Qed.

(** C10.  On a loaded Decrypter that holds a cached cipher, the result of
    [Decrypt] is the same for any two phrases.  If that session is what an
    earlier [Decrypt] left behind, every later [Decrypt], whatever the
    phrase, repeats the result of the earlier one, a failure with a wrong
    phrase included, and leaves the session as it is.  [Wipe] removes the
    cached cipher; a successful [Read] removes it when the salt it stores
    differs from the one held and keeps it otherwise. *)
Theorem Decrypter_Decrypt_cached_cipher_ignores_phrase (d : celo) (c : Cipher) :
  IsReady d = true ->
  cipher d = Some c ->
  (forall p1 p2, Decrypter_Decrypt p1 d = Decrypter_Decrypt p2 d) /\
  (forall d0 pw res,
     Decrypter_Decrypt pw d0 = Some (d, res) ->
     forall p, Decrypter_Decrypt p d = Some (d, res)) /\
  cipher (Wipe d) = None /\
  (forall r d' r' n,
     Decrypter_Read d r = Some (d', r', (n, None)) ->
     (salt d' <> salt d -> cipher d' = None) /\
     (salt d' = salt d -> cipher d' = Some c)).
Proof.
  intros Hready Hc. repeat split.
  - intros p1 p2. now rewrite !(Decrypter_Decrypt_cached _ d c Hready Hc).
  - intros d0 pw res H p. exact (Decrypter_Decrypt_repeats pw p d0 d c res H Hready Hc).
  - intros Hsalt.
    apply Decrypter_Read_salt_cipher in H as [[Hs _]|[_ Hnone]];
      [contradiction | exact Hnone].
  - intros Hsalt.
    apply Decrypter_Read_salt_cipher in H as [[_ Hkept]|[Hs _]];
      [congruence | contradiction].
Qed.

End Decrypting.

Lemma Decrypter_Decrypt_cached_cipher_ignores_phrase_witness :
  exists c err,
    IsReady decrypter_after_wrong_phrase = true /\
    cipher decrypter_after_wrong_phrase = Some c /\
    Decrypter_Decrypt (P:=Double.prims) phrase_ok decrypter_loaded
    = Some (set_cipher decrypter_loaded (cipher encrypter_hello),
            (plain_hello, None)) /\
    Decrypter_Decrypt (P:=Double.prims) phrase_wrong decrypter_loaded
    = Some (decrypter_after_wrong_phrase, ([], Some err)) /\
    Decrypter_Decrypt (P:=Double.prims) phrase_ok decrypter_after_wrong_phrase
    = Some (decrypter_after_wrong_phrase, ([], Some err)) /\
    Is errors.Decrypt err = true.
Proof.
  eexists. eexists. split; [reflexivity|]. split; [reflexivity|].
  split; [reflexivity|].
  assert (Hwrong : Decrypter_Decrypt (P:=Double.prims) phrase_wrong decrypter_loaded
                   = Some (decrypter_after_wrong_phrase,
                           ([], Some (Error "" "cipher.Decrypt" errors.Decrypt
                                        (Some cipher_errOpen)))))
    by reflexivity.
  split; [exact Hwrong|]. split; [|reflexivity].
  destruct (@Decrypter_Decrypt_cached_cipher_ignores_phrase Double.prims
              decrypter_after_wrong_phrase
              (mkCipher 32 (GenerateKey (P:=Double.prims) phrase_wrong
                              (bytes_of (salt decrypter_loaded)) 32))
              eq_refl eq_refl) as (_ & Hrepeat & _).
  exact (Hrepeat _ _ _ Hwrong phrase_ok).
Defined.

(** ** The round trip *)

Section RoundTrip.

Context {P : Primitives} {L : PrimitivesLaws P}.

Lemma aes_key_size_ok_32 (key : bytes) :
  len key = 32 -> aes_key_size_ok key = true.
Proof.
  unfold len, aes_key_size_ok. intros H.
  replace (List.length key) with 32%nat by lia. reflexivity.
Qed.

(** The key both sessions derive from a phrase and a salt has the size of
    the default block, which [aes.NewCipher] accepts. *)
Lemma GenerateKey_default_ok (phrase s : bytes) :
  aes_key_size_ok (GenerateKey phrase s (uint32 Aes256BlockSize)) = true.
Proof.
  apply aes_key_size_ok_32. unfold GenerateKey.
  change (uint32 Aes256BlockSize) with 32. apply IDKey_length. lia.
Qed.

(** [Encrypt] on a default Encrypter, with entropy for a salt and a nonce. *)
Lemma Encrypter_Encrypt_default (K Pt : bytes) (rnd : Reader) :
  (44 <= List.length rnd)%nat ->
  let s := firstn 32 rnd in
  let nc := firstn 12 (skipn 32 rnd) in
  let key := GenerateKey K s (uint32 Aes256BlockSize) in
  let ct := gcm_Seal key nc Pt [] in
  Encrypter_Encrypt K Pt NewEncrypter rnd
  = Some (mkCelo (Some newCurrentMetadata) Aes256BlockSize SaltSize NonceSize
            (Some s) (Some nc) (Some ct) (Some (mkCipher Aes256BlockSize key))
            Extension false true,
          skipn 12 (skipn 32 rnd), (ct, None)).
Proof.
  intros Hlen s nc key ct.
  unfold Encrypter_Encrypt, Encrypter_Init, NewSalt.
  cbn [NewEncrypter initialized preserveKey andb set_initialized saltSize].
  change (make_bytes SaltSize) with (Some (repeat x00 32)).
  change (Z.to_nat SaltSize) with 32%nat.
  rewrite ReadFull_enough by lia.
  cbn [set_salt salt bytes_of blockSize nonceSize metadata nonce ciphertext
       cipher ext preserveKey initialized saltSize].
  fold s. unfold NewCipher. fold key. unfold key at 1.
  rewrite GenerateKey_default_ok.
  cbn [set_cipher cipher]. unfold Cipher_Encrypt, Cipher_NonceSize.
  change (Z.to_nat gcmStandardNonceSize) with 12%nat.
  rewrite ReadFull_enough by (rewrite length_skipn; lia).
  fold nc. cbn [aead]. fold ct. reflexivity.
Qed.

(** The header a default Encrypter writes is decoded as such. *)
Lemma DecodeMetadata_current (rest : bytes) :
  DecodeMetadata (Metadata_Bytes newCurrentMetadata ++ rest)
  = (rest, (Some newCurrentMetadata, 0, None)).
Proof.
  change (Metadata_Bytes newCurrentMetadata)
    with (signature newCurrentMetadata
          ++ vsbn newCurrentMetadata ++ reserved newCurrentMetadata).
  rewrite <- !app_assoc. now rewrite DecodeMetadata_app.
Qed.

(** [Read] on a default Decrypter, from an envelope with the current
    header, a salt and a nonce of the default sizes. *)
Lemma Decrypter_Read_default (s nc ct : bytes) :
  len s = SaltSize -> len nc = NonceSize ->
  Decrypter_Read NewDecrypter (Metadata_Bytes newCurrentMetadata ++ s ++ nc ++ ct)
  = Some (mkCelo (Some newCurrentMetadata) Aes256BlockSize SaltSize NonceSize
            (Some s) (Some nc) (Some ct) None Extension false true,
          [], (len ct, None)).
Proof.
  intros Hs Hn.
  assert (Hs' : List.length s = 32%nat) by (unfold len, SaltSize in Hs; lia).
  assert (Hn' : List.length nc = 12%nat) by (unfold len, NonceSize in Hn; lia).
  unfold Decrypter_Read. rewrite DecodeMetadata_current.
  cbn [NewDecrypter set_metadata saltSize].
  change (make_bytes SaltSize) with (Some (repeat x00 32)).
  change (Z.to_nat SaltSize) with 32%nat.
  rewrite (ReadFull_prefix s _ 32 Hs').
  cbn [salt orb set_salt set_cipher nonceSize].
  change (make_bytes NonceSize) with (Some (repeat x00 12)).
  change (Z.to_nat NonceSize) with 12%nat.
  rewrite (ReadFull_prefix nc _ 12 Hn').
  reflexivity.
Qed.

(** [Decrypt] on the session [Read] leaves, with the phrase the ciphertext
    was sealed under. *)
Lemma Decrypter_Decrypt_loaded (K Pt s nc : bytes) :
  len nc = NonceSize ->
  let key := GenerateKey K s (uint32 Aes256BlockSize) in
  let d := mkCelo (Some newCurrentMetadata) Aes256BlockSize SaltSize NonceSize
             (Some s) (Some nc) (Some (gcm_Seal key nc Pt [])) None
             Extension false true in
  Decrypter_Decrypt K d
  = Some (set_cipher d (Some (mkCipher Aes256BlockSize key)), (Pt, None)).
Proof.
  intros Hn key d. subst d.
  unfold Decrypter_Decrypt, Decrypter_initCipher, NewCipher.
  cbn [IsReady initialized negb cipher blockSize nonceSize salt bytes_of].
  fold key. unfold key at 1. rewrite GenerateKey_default_ok.
  cbn [cipher set_cipher nonce ciphertext bytes_of]. unfold Cipher_Decrypt.
  cbn [aead]. rewrite Hn. change (NonceSize =? gcmStandardNonceSize) with true.
  cbv iota. rewrite Open_Seal; [reflexivity | apply GenerateKey_default_ok | exact Hn].
Qed.

(** C1.  For every plaintext and passphrase, and an entropy source that
    holds the 44 bytes of a salt and a nonce: [Encrypt] on a default
    Encrypter succeeds, [Write] puts the envelope on an empty buffer, [Read]
    on a default Decrypter accepts those bytes, and [Decrypt] with the same
    passphrase returns exactly the plaintext. *)
Theorem Encrypt_Write_Read_Decrypt_roundtrip (K Pt : bytes) (rnd : Reader) :
  (44 <= List.length rnd)%nat ->
  exists e rnd' ct w n d r n' d',
    Encrypter_Encrypt K Pt NewEncrypter rnd = Some (e, rnd', (ct, None)) /\
    Encrypter_Write e buffer = Some (w, (n, None)) /\
    Decrypter_Read NewDecrypter (written w) = Some (d, r, (n', None)) /\
    Decrypter_Decrypt K d = Some (d', (Pt, None)).
Proof.
  intros Hlen.
  pose (s := firstn 32 rnd).
  pose (nc := firstn 12 (skipn 32 rnd)).
  pose (key := GenerateKey K s (uint32 Aes256BlockSize)).
  assert (Hs : len s = SaltSize)
    by (unfold len, s, SaltSize; rewrite length_firstn; lia).
  assert (Hn : len nc = NonceSize)
    by (unfold len, nc, NonceSize; rewrite length_firstn, length_skipn; lia).
  do 9 eexists. split; [|split; [|split]].
  - exact (Encrypter_Encrypt_default K Pt rnd Hlen).
  - apply Encrypter_Write_accepted with (m := newCurrentMetadata);
      [reflexivity | reflexivity | exact I].
  - cbn [fed written buffer app salt nonce ciphertext bytes_of].
    exact (Decrypter_Read_default s nc _ Hs Hn).
  - exact (Decrypter_Decrypt_loaded K Pt s nc Hn).
Qed.

End RoundTrip.

Lemma Encrypt_Write_Read_Decrypt_roundtrip_witness :
  (44 <= List.length entropy50)%nat /\
  exists e rnd' ct w n d r n' d',
    Encrypter_Encrypt (P:=Double.prims) phrase_ok plain_hello NewEncrypter entropy50
    = Some (e, rnd', (ct, None)) /\
    Encrypter_Write e buffer = Some (w, (n, None)) /\
    Decrypter_Read NewDecrypter (written w) = Some (d, r, (n', None)) /\
    Decrypter_Decrypt (P:=Double.prims) phrase_ok d = Some (d', (plain_hello, None)).
Proof.
  assert (Hlen : (44 <= List.length entropy50)%nat) by (vm_compute; lia).
  split; [exact Hlen|].
  exact (@Encrypt_Write_Read_Decrypt_roundtrip Double.prims Double_laws
           phrase_ok plain_hello entropy50 Hlen).
Defined.

(** * Further properties *)

(** ** errors/errors.go *)

Lemma Kind_beq_refl (k : errors.Kind) : errors.Kind_beq k k = true.
Proof. destruct k; reflexivity. Qed.

Lemma Kind_beq_eq (a b : errors.Kind) : errors.Kind_beq a b = true <-> a = b.
Proof.
  split; [|intros ->; apply Kind_beq_refl].
  destruct a, b; simpl; intros H; try discriminate H; reflexivity.
Qed.

Lemma Kind_beq_Other (k : errors.Kind) :
  k <> errors.Other -> errors.Kind_beq k errors.Other = false.
Proof. intros H. destruct k; try reflexivity. now elim H. Qed.

(** X1.  [Is] answers for the kind given to [E] whenever that kind is not
    [Other], whatever error is wrapped; an [E] of kind [Other] answers as
    the error it wraps. *)
Theorem Is_E (kind k : errors.Kind) (op : string) (err : option error) :
  kind <> errors.Other ->
  Is k (E kind op err) = errors.Kind_beq kind k /\
  Is k (E errors.Other op err) = fails_with k err.
Proof.
  intros Hk. pose proof (Kind_beq_Other kind Hk) as Hno. split.
  - destruct err as [[| | | | |ent o pk perr]|]; simpl; rewrite ?Hno; simpl;
      rewrite ?Hno; reflexivity.
  - destruct err as [[| | | | |ent o pk perr]|]; try reflexivity.
    destruct pk; reflexivity.
Qed.

Lemma Is_E_witness :
  Is errors.Salt (E errors.Salt "phrase.NewSalt" (Some io_EOF)) = true /\
  Is errors.Salt
    (E errors.Other "op" (Some (E errors.Salt "phrase.NewSalt" (Some io_EOF))))
  = true.
Proof.
  assert (Hk : errors.Salt <> errors.Other) by discriminate.
  split.
  - exact (proj1 (@Is_E errors.Salt errors.Salt "phrase.NewSalt" (Some io_EOF) Hk)).
  - reflexivity.
Defined.

(** ** metadata.go *)

Lemma ReadFull_error_inv (r r' : Reader) (n : nat) (buf : bytes) (k : Z)
    (err : error) :
  ReadFull r n = (r', (buf, k, Some err)) ->
  r' = [] /\ (List.length r < n)%nat /\ k = len r /\
  (err = io_EOF \/ err = io_ErrUnexpectedEOF).
Proof.
  unfold ReadFull.
  destruct (Nat.leb_spec n (List.length r)) as [Hle|Hlt]; [discriminate|].
  intros H; injection H as <- <- <- <-.
  repeat split; [exact Hlt|]. destruct r; auto.
Qed.

(** What a successful [DecodeMetadata] has read. *)
Lemma DecodeMetadata_success_inv (r r' : Reader) (m : Metadata) (n : Z) :
  DecodeMetadata r = (r', (Some m, n, None)) ->
  exists sig v res,
    r = sig ++ v ++ res ++ r' /\ m = mkMetadata sig v res /\
    List.length sig = 8%nat /\ List.length v = 4%nat /\
    List.length res = 20%nat /\
    ValidateMetadata sig v res = None /\ n = 0.
Proof.
  unfold DecodeMetadata.
  destruct (ReadFull r 8) as [r1 [[sig n1] [e1|]]] eqn:H1; [discriminate|].
  destruct (ReadFull r1 4) as [r2 [[v n2] [e2|]]] eqn:H2; [discriminate|].
  destruct (ReadFull r2 20) as [r3 [[res n3] [e3|]]] eqn:H3; [discriminate|].
  destruct (ValidateMetadata sig v res) eqn:Hvalid; [discriminate|].
  intros H; injection H as <- <- <-.
  apply ReadFull_ok_inv in H1 as (-> & Hs & _).
  apply ReadFull_ok_inv in H2 as (-> & Hv & _).
  apply ReadFull_ok_inv in H3 as (-> & Hr & _).
  exists sig, v, res. repeat split; assumption.
Qed.

(** On a source of at least 32 bytes the outcome is that of
    [ValidateMetadata] on the three fields of the header. *)
Lemma DecodeMetadata_long (r : Reader) :
  (32 <= List.length r)%nat ->
  exists sig v res rest,
    r = sig ++ v ++ res ++ rest /\
    List.length sig = 8%nat /\ List.length v = 4%nat /\
    List.length res = 20%nat /\
    DecodeMetadata r
    = (rest,
       match ValidateMetadata sig v res with
       | Some err => (None, 0, Some err)
       | None => (Some (mkMetadata sig v res), 0, None)
       end).
Proof.
  intros Hlen.
  exists (firstn 8 r), (firstn 4 (skipn 8 r)), (firstn 20 (skipn 12 r)),
    (skipn 32 r).
  assert (Hs : List.length (firstn 8 r) = 8%nat)
    by (rewrite length_firstn; lia).
  assert (Hv : List.length (firstn 4 (skipn 8 r)) = 4%nat)
    by (rewrite length_firstn, length_skipn; lia).
  assert (Hr : List.length (firstn 20 (skipn 12 r)) = 20%nat)
    by (rewrite length_firstn, length_skipn; lia).
  assert (Hsplit : r = firstn 8 r ++ firstn 4 (skipn 8 r)
                       ++ firstn 20 (skipn 12 r) ++ skipn 32 r).
  { rewrite <- (firstn_skipn 8 r) at 1. f_equal.
    rewrite <- (firstn_skipn 4 (skipn 8 r)) at 1. f_equal.
    rewrite skipn_skipn. change (4 + 8)%nat with 12%nat.
    rewrite <- (firstn_skipn 20 (skipn 12 r)) at 1. f_equal.
    now rewrite skipn_skipn. }
  repeat split; try assumption.
  rewrite Hsplit at 1. unfold DecodeMetadata.
  rewrite (ReadFull_prefix _ _ 8 Hs), (ReadFull_prefix _ _ 4 Hv),
    (ReadFull_prefix _ _ 20 Hr).
  now destruct (ValidateMetadata _ _ _).
Qed.

(** A source of fewer than 32 bytes is consumed and refused. *)
Lemma DecodeMetadata_short_consumed (r : Reader) :
  (List.length r < 32)%nat ->
  exists n err,
    DecodeMetadata r = ([], (None, n, Some err)) /\
    Is errors.Metadata err = true.
Proof.
  intros Hlen. unfold DecodeMetadata.
  destruct (ReadFull r 8) as [r1 [[sig n1] [e1|]]] eqn:H1.
  { apply ReadFull_error_inv in H1 as (-> & _ & _ & [-> | ->]); eauto. }
  apply ReadFull_ok_inv in H1 as (-> & Hs & _).
  destruct (ReadFull r1 4) as [r2 [[v n2] [e2|]]] eqn:H2.
  { apply ReadFull_error_inv in H2 as (-> & _ & _ & [-> | ->]); eauto. }
  apply ReadFull_ok_inv in H2 as (-> & Hv & _).
  destruct (ReadFull r2 20) as [r3 [[res n3] [e3|]]] eqn:H3.
  { apply ReadFull_error_inv in H3 as (-> & _ & _ & [-> | ->]); eauto. }
  apply ReadFull_ok_inv in H3 as (-> & Hr & _).
  rewrite !length_app in Hlen. lia.
Qed.

Lemma byte_val_range (b : byte) : 0 <= byte_val b < 256.
Proof.
  unfold byte_val. pose proof (Byte.to_N_bounded b) as H. lia.
Qed.

(** [ValidateMetadata] accepts exactly the magic signature with version 1,
    a block size of 16 or 32 and a nonce size of at most 32. *)
Lemma ValidateMetadata_None_iff (sig v res : bytes) :
  ValidateMetadata sig v res = None <->
  sig = signatureHeader /\
  byte_val (byte_at v versionIndex) = 1 /\
  (byte_val (byte_at v blockSizeIndex) = 16
   \/ byte_val (byte_at v blockSizeIndex) = 32) /\
  byte_val (byte_at v nonceSizeIndex) <= 32.
Proof.
  rewrite ValidateMetadata_cases.
  destruct (bytes_Equal sig signatureHeader) eqn:Hsig; cbn [negb].
  2:{ split; [discriminate|]. intros (-> & _).
      now rewrite bytes_Equal_refl in Hsig. }
  apply bytes_Equal_eq in Hsig.
  destruct (Z.eqb_spec (byte_val (byte_at v versionIndex)) 1) as [Hv|Hv];
    cbn [negb]; [|split; [discriminate | intros (_ & ? & _); contradiction]].
  destruct (Z.eqb_spec (byte_val (byte_at v blockSizeIndex)) 16) as [H16|H16];
    destruct (Z.eqb_spec (byte_val (byte_at v blockSizeIndex)) 32) as [H32|H32];
    cbn [orb negb];
    try (destruct (Z.ltb_spec 32 (byte_val (byte_at v nonceSizeIndex)));
         split; try discriminate; intros; repeat split; auto; lia).
Qed.

(** X2.  [newMetadata(version, blockSize, saltSize, nonceSize)] returns a
    metadata exactly when the version is 1, the block size 16 or 32 and the
    nonce size at most 32, whatever the salt size; its bytes then carry, after
    the signature, version, salt size, block size and nonce size in that
    order and twenty zero bytes. *)
Theorem newMetadata_accepts_iff (version blockSize saltSize nonceSize : byte) :
  (exists m,
     newMetadata version blockSize saltSize nonceSize = (Some m, None) /\
     Metadata_Bytes m
     = signatureHeader ++ [version; saltSize; blockSize; nonceSize]
       ++ repeat x00 20)
  <->
  (byte_val version = 1 /\
   (byte_val blockSize = 16 \/ byte_val blockSize = 32) /\
   byte_val nonceSize <= 32).
Proof.
  unfold newMetadata.
  pose proof (ValidateMetadata_None_iff signatureHeader
                [version; saltSize; blockSize; nonceSize] (repeat x00 20)) as Hv.
  unfold byte_at, versionIndex, blockSizeIndex, nonceSizeIndex in Hv.
  cbn [nth] in Hv.
  destruct (ValidateMetadata signatureHeader _ _) as [err|].
  - split.
    + intros (m & H & _). discriminate H.
    + intros H. assert (Some err = None) by (apply Hv; tauto). discriminate.
  - split.
    + intros _. now apply Hv.
    + intros _. eexists. split; reflexivity.
Qed.

(** X3.  A metadata made by [newMetadata] is what [DecodeMetadata] reads
    back from its bytes, leaving what follows them on the source. *)
Theorem DecodeMetadata_Bytes_roundtrip
    (version blockSize saltSize nonceSize : byte) (m : Metadata) (rest : bytes) :
  newMetadata version blockSize saltSize nonceSize = (Some m, None) ->
  DecodeMetadata (Metadata_Bytes m ++ rest) = (rest, (Some m, 0, None)).
Proof.
  unfold newMetadata.
  destruct (ValidateMetadata signatureHeader _ _) eqn:Hvalid; [discriminate|].
  intros H; injection H as <-.
  change (Metadata_Bytes _)
    with (signatureHeader ++ [version; saltSize; blockSize; nonceSize]
          ++ repeat x00 20).
  rewrite <- !app_assoc.
  now rewrite DecodeMetadata_app.
Qed.

Lemma DecodeMetadata_Bytes_roundtrip_witness :
  newMetadata x01 x10 x08 x0c
  = (Some (mkMetadata signatureHeader [x01; x08; x10; x0c] (repeat x00 20)), None)
  /\
  DecodeMetadata
    (Metadata_Bytes (mkMetadata signatureHeader [x01; x08; x10; x0c]
                       (repeat x00 20)) ++ plain_hello)
  = (plain_hello,
     (Some (mkMetadata signatureHeader [x01; x08; x10; x0c] (repeat x00 20)),
      0, None)).
Proof.
  split; [reflexivity|].
  exact (@DecodeMetadata_Bytes_roundtrip x01 x10 x08 x0c _ plain_hello eq_refl).
Defined.

(** X4.  A metadata decoded from a 32-byte header verifies that header
    exactly when the twenty reserved bytes of the header are zero: [Bytes]
    does not carry the reserved field. *)
Theorem Metadata_Verify_decoded (hdr : bytes) (m : Metadata) :
  DecodeMetadata hdr = ([], (Some m, 0, None)) ->
  (Metadata_Verify m hdr = true <-> reserved m = repeat x00 20).
Proof.
  intros H. apply DecodeMetadata_success_inv in H
    as (sig & v & res & Hhdr & Hm & Hs & Hv & Hr & _ & _).
  subst hdr m. cbn [reserved]. unfold Metadata_Verify.
  rewrite bytes_Equal_eq.
  rewrite (Metadata_Bytes_arrays (mkMetadata sig v res) Hs Hv).
  cbn [signature vsbn]. rewrite app_nil_r. split.
  - intros Heq. apply app_inv_head in Heq. apply app_inv_head in Heq.
    now symmetry.
  - now intros ->.
Qed.

Lemma Metadata_Verify_decoded_witness :
  exists m,
    DecodeMetadata (signatureHeader ++ [x01; x20; x20; x0c] ++ repeat xff 20)
    = ([], (Some m, 0, None)) /\
    Metadata_Verify m (signatureHeader ++ [x01; x20; x20; x0c] ++ repeat xff 20)
    = false /\
    Metadata_Verify newCurrentMetadata (Metadata_Bytes newCurrentMetadata) = true.
Proof.
  eexists. split; [reflexivity|]. split; [reflexivity|].
  apply (proj2 (@Metadata_Verify_decoded (Metadata_Bytes newCurrentMetadata)
                  newCurrentMetadata eq_refl)).
  reflexivity.
Defined.

(** X5.  [DecodeMetadata] fails with a Metadata error exactly when the
    source holds fewer than 32 bytes, and it then has consumed the source;
    no failure returns a metadata. *)
Theorem DecodeMetadata_Metadata_error_iff (r : Reader) :
  (fails_with errors.Metadata (snd (snd (DecodeMetadata r))) = true
   <-> (List.length r < 32)%nat) /\
  (fails_with errors.Metadata (snd (snd (DecodeMetadata r))) = true ->
   fst (DecodeMetadata r) = []) /\
  (snd (snd (DecodeMetadata r)) <> None ->
   fst (fst (snd (DecodeMetadata r))) = None).
Proof.
  destruct (Nat.lt_ge_cases (List.length r) 32) as [Hshort|Hlong].
  - destruct (DecodeMetadata_short_consumed r Hshort) as (n & err & H & Hk).
    rewrite H. cbn [fst snd fails_with]. rewrite Hk. repeat split; auto.
  - destruct (DecodeMetadata_long r Hlong) as (sig & v & res & rest & Hr & _ & _ & _ & H).
    rewrite H. cbn [fst snd].
    destruct (ValidateMetadata sig v res) as [err|] eqn:Hvalid;
      cbn [fst snd fails_with].
    + assert (Hno : Is errors.Metadata err = false).
      { rewrite ValidateMetadata_cases in Hvalid.
        repeat match type of Hvalid with
               | (if ?c then _ else _) = _ => destruct c
               end; try discriminate; injection Hvalid as <-; reflexivity. }
      rewrite Hno. repeat split; try discriminate; try lia; auto.
    + repeat split; try discriminate; try lia. intros Hc. now elim Hc.
Qed.

(** ** decrypter.go: Read *)

(** X6.  A successful [Read] has cut the source into a 32-byte header that
    validates, a salt of the configured salt size, a nonce of the configured
    nonce size and the ciphertext, which is all the rest; the sizes declared
    in the header play no part.  The session holds the three parts and is
    ready, the source is used up, and the count returned is the length of
    the ciphertext. *)
Theorem Decrypter_Read_success_inv (d d' : celo) (r r' : Reader) (n : Z) :
  Decrypter_Read d r = Some (d', r', (n, None)) ->
  exists sig v res s nc ct,
    r = (sig ++ v ++ res) ++ s ++ nc ++ ct /\
    len (sig ++ v ++ res) = 32 /\
    ValidateMetadata sig v res = None /\
    len s = saltSize d /\ len nc = nonceSize d /\
    metadata d' = Some (mkMetadata sig v res) /\
    salt d' = Some s /\ nonce d' = Some nc /\ ciphertext d' = Some ct /\
    IsReady d' = true /\
    r' = [] /\ n = len ct.
Proof.
  unfold Decrypter_Read.
  destruct (DecodeMetadata r) as [r1 [[m n1] [err|]]] eqn:Hm; [discriminate|].
  destruct m as [m|].
  2:{ exfalso. destruct (Nat.lt_ge_cases (List.length r) 32) as [Hs|Hl].
      - destruct (DecodeMetadata_short_consumed r Hs) as (? & ? & H & _).
        rewrite H in Hm. discriminate.
      - destruct (DecodeMetadata_long r Hl) as (? & ? & ? & ? & _ & _ & _ & _ & H).
        rewrite H in Hm. destruct (ValidateMetadata _ _ _); discriminate. }
  apply DecodeMetadata_success_inv in Hm
    as (sig & v & res & -> & -> & Hs & Hv & Hr & Hvalid & ->).
  cbn [saltSize set_metadata]. unfold make_bytes.
  destruct (Z.ltb_spec (saltSize d) 0) as [|Hsalt]; [discriminate|].
  destruct (ReadFull r1 _) as [r2 [[s n2] [err|]]] eqn:H2; [discriminate|].
  apply ReadFull_ok_inv in H2 as (-> & Hslen & _).
  match goal with
  | |- context [if ?c then set_cipher _ None else _] =>
      destruct c eqn:Hchanged
  end;
  cbn [nonceSize set_cipher set_salt set_metadata];
  (destruct (Z.ltb_spec (nonceSize d) 0) as [|Hnonce]; [discriminate|]);
  (destruct (ReadFull r2 _) as [r3 [[nc n3] [err|]]] eqn:H3; [discriminate|]);
  apply ReadFull_ok_inv in H3 as (-> & Hnlen & _);
  cbn [ReadAll]; intros H; injection H as <- <- <-;
  exists sig, v, res, s, nc, r3;
  cbn [metadata salt nonce ciphertext IsReady initialized set_initialized
       set_ciphertext set_nonce set_cipher set_salt set_metadata];
  (assert (Hlen32 : len (sig ++ v ++ res) = 32)
     by (unfold len; rewrite !length_app; lia));
  (assert (Hls : len s = saltSize d) by (unfold len; lia));
  (assert (Hln : len nc = nonceSize d) by (unfold len; lia));
  rewrite <- !app_assoc; repeat split; try assumption.
  cbn [salt set_metadata] in Hchanged.
  destruct (salt d) as [s0|]; cbn [orb bytes_of] in Hchanged;
    [|discriminate Hchanged]. apply negb_false_iff, bytes_Equal_eq in Hchanged.
  now subst s0.
Qed.

Lemma Decrypter_Read_success_inv_witness :
  exists d' sig v res s nc ct,
    Decrypter_Read NewDecrypter envelope_hello = Some (d', [], (21, None)) /\
    envelope_hello = (sig ++ v ++ res) ++ s ++ nc ++ ct /\
    len s = 32 /\ len nc = 12 /\ len ct = 21 /\
    salt d' = Some s /\ nonce d' = Some nc /\ ciphertext d' = Some ct.
Proof.
  assert (H : Decrypter_Read NewDecrypter envelope_hello
              = Some (decrypter_loaded, [], (21, None))) by reflexivity.
  destruct (Decrypter_Read_success_inv NewDecrypter decrypter_loaded
              envelope_hello [] 21 H)
    as (sig & v & res & s & nc & ct & Hr & _ & _ & Hs & Hn & _ & Hsalt & Hnonce
        & Hct & _ & _ & Hlen).
  exists decrypter_loaded, sig, v, res, s, nc, ct.
  split; [exact H|]. split; [exact Hr|]. split; [exact Hs|].
  split; [exact Hn|]. split; [symmetry; exact Hlen|].
  split; [exact Hsalt|]. split; [exact Hnonce | exact Hct].
Defined.

Lemma ReadFull_short_eq (r : Reader) (n : nat) :
  (List.length r < n)%nat ->
  ReadFull r n
  = ([], (r ++ repeat x00 (n - List.length r), len r,
          Some (match r with [] => io_EOF | _ => io_ErrUnexpectedEOF end))).
Proof.
  intros H. unfold ReadFull.
  destruct (Nat.leb_spec n (List.length r)); [lia | reflexivity].
Qed.

Lemma make_bytes_nonneg (n : Z) :
  0 <= n -> make_bytes n = Some (repeat x00 (Z.to_nat n)).
Proof.
  intros H. unfold make_bytes. destruct (Z.ltb_spec n 0); [lia | reflexivity].
Qed.

(** X7.  An envelope whose header validates but whose body is shorter than
    the configured salt and nonce sizes together is refused: with a Salt
    error when the salt cannot be filled, with a Nonce error otherwise.  The
    source is used up, and the session is no more ready than it was and
    keeps the ciphertext it held. *)
Theorem Decrypter_Read_short_envelope (d : celo) (sig v res body : bytes) :
  List.length sig = 8%nat -> List.length v = 4%nat ->
  List.length res = 20%nat ->
  ValidateMetadata sig v res = None ->
  0 <= saltSize d -> 0 <= nonceSize d ->
  len body < saltSize d + nonceSize d ->
  exists d' n err,
    Decrypter_Read d (sig ++ v ++ res ++ body) = Some (d', [], (n, Some err)) /\
    Is (if len body <? saltSize d then errors.Salt else errors.Nonce) err = true /\
    initialized d' = initialized d /\
    ciphertext d' = ciphertext d.
Proof.
  intros Hs Hv Hr Hvalid Hsalt Hnonce Hshort. unfold Decrypter_Read.
  rewrite (DecodeMetadata_app sig v res body Hs Hv Hr Hvalid).
  cbn [saltSize set_metadata]. rewrite (make_bytes_nonneg _ Hsalt).
  destruct (Z.ltb_spec (len body) (saltSize d)) as [Hlt|Hge].
  - rewrite ReadFull_short_eq by (unfold len in Hlt; lia).
    do 3 eexists. split; [reflexivity|]. repeat split.
    now destruct body.
  - rewrite ReadFull_enough by (unfold len in Hge; lia).
    match goal with
    | |- context [if ?c then set_cipher _ None else _] => destruct c
    end;
      cbn [nonceSize set_cipher set_salt set_metadata];
      rewrite (make_bytes_nonneg _ Hnonce);
      (rewrite ReadFull_short_eq
         by (rewrite length_skipn; unfold len in *; lia));
      do 3 eexists; (split; [reflexivity|]); repeat split;
      now destruct (skipn _ body).
Qed.

Lemma Decrypter_Read_short_envelope_witness :
  exists d' n err,
    Decrypter_Read NewDecrypter (Metadata_Bytes newCurrentMetadata ++ plain_hello)
    = Some (d', [], (n, Some err)) /\
    Is errors.Salt err = true /\
    initialized d' = false.
Proof.
  destruct (Decrypter_Read_short_envelope NewDecrypter
              signatureHeader [x01; x20; x20; x0c] (repeat x00 20) plain_hello)
    as (d' & n & err & H & Hk & Hi & _);
    try reflexivity; try (vm_compute; discriminate).
  exists d', n, err. split; [exact H|]. split; [exact Hk | exact Hi].
Defined.




(** ** decrypter.go: Decrypt and Init *)

Lemma set_cipher_same (d : celo) : set_cipher d (cipher d) = d.
Proof. now destruct d. Qed.

Section DecryptFrame.

Context {P : Primitives}.

(** X9.  [Decrypt] changes nothing in the session but the cached cipher.
    When it fails it returns no plaintext and an error of kind NotReady,
    Cipher or Decrypt; on a session that is not ready the error is NotReady
    and not even the cipher changes. *)
Theorem Decrypter_Decrypt_frame (phrase : bytes) (d d' : celo)
    (plaintext : bytes) (err : option error) :
  Decrypter_Decrypt phrase d = Some (d', (plaintext, err)) ->
  d' = set_cipher d (cipher d') /\
  (forall e, err = Some e ->
     plaintext = [] /\
     (Is errors.NotReady e || Is errors.Cipher e || Is errors.Decrypt e) = true) /\
  (IsReady d = false -> d' = d /\ fails_with errors.NotReady err = true).
Proof.
  unfold Decrypter_Decrypt.
  destruct (IsReady d) eqn:Hready; cbn [negb].
  2:{ intros H; injection H as <- <- <-. rewrite set_cipher_same.
      split; [reflexivity|]. split; [|split; reflexivity].
      intros e0 [= <-]. split; reflexivity. }
  assert (Hafter : forall d1 c1,
             cipher d1 = Some c1 -> d1 = set_cipher d (Some c1) ->
             match Cipher_Decrypt c1 (bytes_of (nonce d1)) (bytes_of (ciphertext d1)) with
             | Some (_, Some err) => Some (d1, ([], Some err))
             | Some (plaintext, None) => Some (d1, (plaintext, None))
             | None => None
             end = Some (d', (plaintext, err)) ->
             d' = set_cipher d (cipher d') /\
             (forall e, err = Some e ->
                plaintext = [] /\
                (Is errors.NotReady e || Is errors.Cipher e
                 || Is errors.Decrypt e) = true) /\
             (true = false -> d' = d /\ fails_with errors.NotReady err = true)).
  { intros d1 c1 Hc1 Hd1. unfold Cipher_Decrypt.
    destruct (len _ =? gcmStandardNonceSize); [|discriminate].
    destruct (gcm_Open _ _ _ _); intros H; injection H as <- <- <-;
      rewrite Hc1; (split; [exact Hd1|]); split; try discriminate.
    intros e [= <-]. split; reflexivity. }
  destruct (cipher d) as [c|] eqn:Hc.
  - rewrite Hc. apply (Hafter d c Hc). now rewrite <- Hc, set_cipher_same.
  - unfold Decrypter_initCipher, NewCipher.
    destruct (aes_key_size_ok _).
    + cbn [cipher set_cipher].
      match goal with
      | |- context [Cipher_Decrypt ?c1 _ _] =>
          apply (Hafter (set_cipher d (Some c1)) c1 eq_refl eq_refl)
      end.
    + intros H; injection H as <- <- <-. rewrite set_cipher_same.
      split; [reflexivity|]. split; [|discriminate].
      intros e [= <-]. split; reflexivity.
Qed.

End DecryptFrame.

Lemma Decrypter_Decrypt_frame_witness :
  exists d' e,
    Decrypter_Decrypt (P:=Double.prims) phrase_wrong decrypter_loaded
    = Some (d', ([], Some e)) /\
    d' = set_cipher decrypter_loaded (cipher d') /\
    Is errors.Decrypt e = true.
Proof.
  assert (H : Decrypter_Decrypt (P:=Double.prims) phrase_wrong decrypter_loaded
              = Some (decrypter_after_wrong_phrase,
                      ([], Some (Error "" "cipher.Decrypt" errors.Decrypt
                                   (Some cipher_errOpen)))))
    by reflexivity.
  destruct (@Decrypter_Decrypt_frame Double.prims phrase_wrong decrypter_loaded
              decrypter_after_wrong_phrase [] _ H) as (Hframe & _ & _).
  do 2 eexists. split; [exact H|]. split; [exact Hframe | reflexivity].
Defined.

Section DecrypterInitProperties.

Context {P : Primitives}.

(** X10.  [Decrypter.Init] with a salt or a nonce whose length is not the
    configured size fails with a SaltSize or a NonceSize error, SaltSize
    first, and leaves the session as it was. *)
Theorem Decrypter_Init_wrong_sizes (phrase : bytes) (s nc ct : option bytes)
    (d : celo) :
  len (bytes_of s) <> saltSize d \/ len (bytes_of nc) <> nonceSize d ->
  exists err,
    Decrypter_Init phrase s nc ct d = (d, Some err) /\
    Is (if len (bytes_of s) =? saltSize d
        then errors.NonceSize else errors.SaltSize) err = true.
Proof.
  intros H. unfold Decrypter_Init.
  destruct (Z.eqb_spec (len (bytes_of s)) (saltSize d)) as [Hs|Hs]; cbn [negb].
  - destruct (Z.eqb_spec (len (bytes_of nc)) (nonceSize d)) as [Hn|Hn];
      cbn [negb]; [tauto|]. eexists. split; reflexivity.
  - eexists. split; reflexivity.
Qed.

End DecrypterInitProperties.

Lemma Decrypter_Init_wrong_sizes_witness :
  exists err,
    Decrypter_Init (P:=Double.prims) phrase_ok (Some plain_hello) None None
      NewDecrypter
    = (NewDecrypter, Some err) /\
    Is errors.SaltSize err = true.
Proof.
  apply (@Decrypter_Init_wrong_sizes Double.prims phrase_ok (Some plain_hello)
           None None NewDecrypter).
  left. vm_compute. discriminate.
Defined.

Section DecrypterInitRoundTrip.

Context {P : Primitives} {L : PrimitivesLaws P}.

(** X11.  What a default Encrypter holds after [Encrypt], handed to
    [Decrypter.Init] of a default Decrypter with the same phrase, is
    accepted; [Decrypt] then returns the plaintext, whatever phrase it is
    given. *)
Theorem Decrypter_Init_Decrypt_roundtrip (K Pt : bytes) (rnd : Reader) :
  (44 <= List.length rnd)%nat ->
  exists e rnd' ct d,
    Encrypter_Encrypt K Pt NewEncrypter rnd = Some (e, rnd', (ct, None)) /\
    Decrypter_Init K (salt e) (nonce e) (ciphertext e) NewDecrypter = (d, None) /\
    forall K', Decrypter_Decrypt K' d = Some (d, (Pt, None)).
Proof.
  intros Hlen.
  assert (Hn : len (firstn 12 (skipn 32 rnd)) = NonceSize)
    by (unfold len, NonceSize; rewrite length_firstn, length_skipn; lia).
  assert (Hs : len (firstn 32 rnd) = SaltSize)
    by (unfold len, SaltSize; rewrite length_firstn; lia).
  do 4 eexists. split; [exact (Encrypter_Encrypt_default K Pt rnd Hlen)|].
  cbn [salt nonce ciphertext]. pose proof Hn as Hn12.
  apply Z.eqb_eq in Hs, Hn. split.
  - unfold Decrypter_Init. cbn [bytes_of NewDecrypter saltSize nonceSize].
    rewrite Hs, Hn. cbn [negb].
    cbn [set_salt set_nonce salt blockSize nonceSize bytes_of].
    unfold NewCipher. rewrite GenerateKey_default_ok. reflexivity.
  - intros K'. unfold Decrypter_Decrypt.
    cbn [IsReady initialized set_initialized negb cipher set_ciphertext
         set_cipher set_nonce set_salt nonce ciphertext bytes_of].
    unfold Cipher_Decrypt. cbn [aead].
    change gcmStandardNonceSize with NonceSize. rewrite Hn.
    rewrite Open_Seal;
      [reflexivity | apply GenerateKey_default_ok | exact Hn12].
Qed.

End DecrypterInitRoundTrip.

Lemma Decrypter_Init_Decrypt_roundtrip_witness :
  exists e rnd' ct d,
    Encrypter_Encrypt (P:=Double.prims) phrase_ok plain_hello NewEncrypter
      entropy50 = Some (e, rnd', (ct, None)) /\
    Decrypter_Init (P:=Double.prims) phrase_ok (salt e) (nonce e) (ciphertext e)
      NewDecrypter = (d, None) /\
    Decrypter_Decrypt (P:=Double.prims) phrase_wrong d
    = Some (d, (plain_hello, None)).
Proof.
  assert (Hlen : (44 <= List.length entropy50)%nat) by (vm_compute; lia).
  destruct (@Decrypter_Init_Decrypt_roundtrip Double.prims Double_laws
              phrase_ok plain_hello entropy50 Hlen)
    as (e & rnd' & ct & d & He & Hd & Hdec).
  exists e, rnd', ct, d. split; [exact He|]. split; [exact Hd|].
  exact (Hdec phrase_wrong).
Defined.

(** ** phrase.go: NewSalt *)

(** X12.  [NewSalt] of a non-negative size either takes exactly that many
    bytes off the front of the entropy source and returns them with their
    count, or, when the source holds fewer, uses it up and returns a nil
    salt, the count of the bytes there were and a Salt error. *)
Theorem NewSalt_result (size : Z) (rnd : Reader) :
  0 <= size ->
  (exists s rnd',
     NewSalt size rnd = Some (rnd', (Some s, size, None)) /\
     rnd = s ++ rnd' /\ len s = size)
  \/
  (exists err,
     NewSalt size rnd = Some ([], (None, len rnd, Some err)) /\
     len rnd < size /\ Is errors.Salt err = true).
Proof.
  intros Hsize. unfold NewSalt. rewrite (make_bytes_nonneg _ Hsize).
  destruct (Nat.le_gt_cases (Z.to_nat size) (List.length rnd)) as [Hle|Hgt].
  - left. rewrite ReadFull_enough by exact Hle.
    exists (firstn (Z.to_nat size) rnd), (skipn (Z.to_nat size) rnd).
    rewrite Z2Nat.id by exact Hsize. split; [reflexivity|].
    split; [now rewrite firstn_skipn|].
    unfold len. rewrite length_firstn. lia.
  - right. rewrite ReadFull_short_eq by exact Hgt.
    eexists. split; [reflexivity|]. split; [unfold len; lia|].
    now destruct rnd.
Qed.

Lemma NewSalt_result_witness :
  (exists s rnd',
     NewSalt 32 entropy50 = Some (rnd', (Some s, 32, None)) /\
     entropy50 = s ++ rnd' /\ len s = 32)
  \/
  (exists err,
     NewSalt 32 entropy50 = Some ([], (None, len entropy50, Some err)) /\
     len entropy50 < 32 /\ Is errors.Salt err = true).
Proof. apply (NewSalt_result 32 entropy50). lia. Defined.

(** ** encrypter.go: Encrypt and Write *)

Section EncryptProperties.

Context {P : Primitives}.

(** X13.  A successful [Encrypt] on a session that does not keep its key
    (it is not initialized, or preserve-key is off) has taken a salt of the
    configured size and then a 12-byte nonce off the entropy source; the
    session is the old configuration with that salt, that nonce, the cipher
    for the key derived from phrase and salt, and the sealed plaintext,
    which is also what is returned. *)
Theorem Encrypter_Encrypt_fresh_success (K Pt : bytes) (e e' : celo)
    (rnd rnd' : Reader) (ct : bytes) :
  initialized e && preserveKey e = false ->
  Encrypter_Encrypt K Pt e rnd = Some (e', rnd', (ct, None)) ->
  exists s nc,
    rnd = s ++ nc ++ rnd' /\
    len s = saltSize e /\ len nc = 12 /\
    ct = gcm_Seal (GenerateKey K s (uint32 (blockSize e))) nc Pt [] /\
    e' = mkCelo (metadata e) (blockSize e) (saltSize e) (nonceSize e)
           (Some s) (Some nc) (Some ct)
           (Some (mkCipher (blockSize e)
                    (GenerateKey K s (uint32 (blockSize e)))))
           (ext e) (preserveKey e) true.
Proof.
  intros Hfresh. unfold Encrypter_Encrypt, Encrypter_Init. rewrite Hfresh.
  cbn [saltSize set_initialized]. unfold NewSalt, make_bytes.
  destruct (Z.ltb_spec (saltSize e) 0) as [|Hsize]; [discriminate|].
  destruct (ReadFull rnd _) as [r1 [[s n1] [err|]]] eqn:H1; [discriminate|].
  apply ReadFull_ok_inv in H1 as (-> & Hs & _).
  cbn [blockSize nonceSize salt set_salt bytes_of]. unfold NewCipher.
  destruct (aes_key_size_ok _); [|discriminate].
  cbn [cipher set_cipher]. unfold Cipher_Encrypt, Cipher_NonceSize.
  destruct (ReadFull r1 _) as [r2 [[nc n2] [err|]]] eqn:H2; [discriminate|].
  apply ReadFull_ok_inv in H2 as (-> & Hn & _).
  cbn [aead set_ciphertext set_nonce ciphertext bytes_of].
  intros H; injection H as <- <- <-.
  exists s, nc. repeat split.
  - unfold len. lia.
  - unfold len. rewrite Hn. reflexivity.
Qed.

(** X14.  On an initialized session with preserve-key and a cached cipher,
    [Encrypt] takes only a 12-byte nonce off the entropy source, seals under
    the cached cipher and leaves salt and cipher as they are; the phrase it
    is given plays no part. *)
Theorem Encrypter_Encrypt_kept_key (K K' Pt : bytes) (e : celo) (c : Cipher)
    (rnd : Reader) :
  initialized e = true -> preserveKey e = true -> cipher e = Some c ->
  (12 <= List.length rnd)%nat ->
  Encrypter_Encrypt K Pt e rnd
  = Some (set_nonce
            (set_ciphertext e
               (Some (gcm_Seal (aead c) (firstn 12 rnd) Pt [])))
            (Some (firstn 12 rnd)),
          skipn 12 rnd,
          (gcm_Seal (aead c) (firstn 12 rnd) Pt [], None)) /\
  Encrypter_Encrypt K' Pt e rnd = Encrypter_Encrypt K Pt e rnd.
Proof.
  intros Hi Hp Hc Hlen.
  assert (H : forall k, Encrypter_Encrypt k Pt e rnd
              = Some (set_nonce
                        (set_ciphertext e
                           (Some (gcm_Seal (aead c) (firstn 12 rnd) Pt [])))
                        (Some (firstn 12 rnd)),
                      skipn 12 rnd,
                      (gcm_Seal (aead c) (firstn 12 rnd) Pt [], None))).
  { intros k. unfold Encrypter_Encrypt, Encrypter_Init.
    rewrite Hi, Hp. cbn [andb]. rewrite Hc.
    unfold Cipher_Encrypt, Cipher_NonceSize.
    change (Z.to_nat gcmStandardNonceSize) with 12%nat.
    rewrite ReadFull_enough by exact Hlen. reflexivity. }
  split; [apply H | now rewrite !H].
Qed.

(** X15.  When [Encrypt] fails it returns no ciphertext, and its error is
    of kind Salt (no entropy for the salt), Cipher (the key is refused) or
    Encrypt (no entropy for the nonce); the nonce held by the session is
    not replaced. *)
Theorem Encrypter_Encrypt_failure (K Pt : bytes) (e e' : celo)
    (rnd rnd' : Reader) (ct : bytes) (err : error) :
  Encrypter_Encrypt K Pt e rnd = Some (e', rnd', (ct, Some err)) ->
  ct = [] /\
  (Is errors.Salt err || Is errors.Cipher err || Is errors.Encrypt err) = true /\
  nonce e' = nonce e.
Proof.
  unfold Encrypter_Encrypt, Encrypter_Init.
  destruct (initialized e && preserveKey e).
  - destruct (cipher e) as [c|]; [|discriminate].
    unfold Cipher_Encrypt.
    destruct (ReadFull rnd _) as [r1 [[nc n1] [e1|]]] eqn:H1;
      [|discriminate].
    intros H; injection H as <- <- <- <-.
    apply ReadFull_error_inv in H1 as (_ & _ & _ & [-> | ->]);
      repeat split.
  - unfold NewSalt. destruct (make_bytes _); [|discriminate].
    destruct (ReadFull rnd _) as [r1 [[s n1] [e1|]]] eqn:H1.
    + intros H; injection H as <- <- <- <-.
      apply ReadFull_error_inv in H1 as (_ & _ & _ & [-> | ->]);
        repeat split.
    + unfold NewCipher. destruct (aes_key_size_ok _).
      * cbn [cipher set_cipher]. unfold Cipher_Encrypt.
        destruct (ReadFull r1 _) as [r2 [[nc n2] [e2|]]] eqn:H2;
          [|discriminate].
        intros H; injection H as <- <- <- <-.
        apply ReadFull_error_inv in H2 as (_ & _ & _ & [-> | ->]);
          repeat split.
      * intros H; injection H as <- <- <- <-. repeat split.
Qed.

End EncryptProperties.

Lemma Encrypter_Encrypt_fresh_success_witness :
  exists s nc,
    entropy50 = s ++ nc ++ skipn 44 entropy50 /\
    len s = 32 /\ len nc = 12 /\
    salt encrypter_hello = Some s /\ nonce encrypter_hello = Some nc.
Proof.
  assert (H : Encrypter_Encrypt (P:=Double.prims) phrase_ok plain_hello
                NewEncrypter entropy50
              = Some (encrypter_hello, skipn 44 entropy50,
                      (bytes_of (ciphertext encrypter_hello), None)))
    by reflexivity.
  destruct (@Encrypter_Encrypt_fresh_success Double.prims phrase_ok plain_hello
              NewEncrypter encrypter_hello entropy50 (skipn 44 entropy50) _
              eq_refl H) as (s & nc & Hr & Hs & Hn & _ & He).
  exists s, nc. split; [exact Hr|]. split; [exact Hs|]. split; [exact Hn|].
  rewrite He. split; reflexivity.
Defined.

Lemma Encrypter_Encrypt_kept_key_witness :
  exists e rnd1 ct,
    Encrypter_Init (P:=Double.prims) phrase_ok NewEncrypter_preserving entropy50
    = Some (e, rnd1, None) /\
    Encrypter_Encrypt (P:=Double.prims) phrase_wrong plain_hello e rnd1
    = Some (set_nonce (set_ciphertext e (Some ct)) (Some (firstn 12 rnd1)),
            skipn 12 rnd1, (ct, None)) /\
    Encrypter_Encrypt (P:=Double.prims) phrase_ok plain_hello e rnd1
    = Encrypter_Encrypt (P:=Double.prims) phrase_wrong plain_hello e rnd1.
Proof.
  do 3 eexists. split; [reflexivity|].
  apply (@Encrypter_Encrypt_kept_key Double.prims phrase_wrong phrase_ok
           plain_hello).
  - reflexivity.
  - reflexivity.
  - reflexivity.
  - vm_compute. lia.
Defined.

Lemma Encrypter_Encrypt_failure_witness :
  exists e' err,
    Encrypter_Encrypt (P:=Double.prims) phrase_ok plain_hello NewEncrypter
      (firstn 40 entropy50) = Some (e', [], ([], Some err)) /\
    Is errors.Encrypt err = true /\ nonce e' = None.
Proof.
  assert (H : exists e' err,
             Encrypter_Encrypt (P:=Double.prims) phrase_ok plain_hello
               NewEncrypter (firstn 40 entropy50)
             = Some (e', [], ([], Some err)) /\ Is errors.Encrypt err = true)
    by (do 2 eexists; split; reflexivity).
  destruct H as (e' & err & H & Hk).
  destruct (@Encrypter_Encrypt_failure Double.prims phrase_ok plain_hello
              NewEncrypter e' (firstn 40 entropy50) [] [] err H)
    as (_ & _ & Hnonce).
  exists e', err. split; [exact H|]. split; [exact Hk | exact Hnonce].
Defined.

Lemma Sink_Write_short (w : Sink) (p : bytes) (k : nat) :
  room w = Some k -> (k < List.length p)%nat ->
  Sink_Write w p
  = (mkSink (written w ++ firstn k p) (Some 0%nat),
     (Z.of_nat k, Some io_ErrShortWrite)).
Proof.
  intros Hroom Hk. unfold Sink_Write. rewrite Hroom.
  destruct (Nat.leb_spec (List.length p) k); [lia | reflexivity].
Qed.

(** Feeding [a] and then the part of [b] that still fits is feeding the
    part of [a ++ b] that fits. *)
Lemma firstn_app_fit (a b : bytes) (k : nat) :
  (List.length a <= k)%nat ->
  firstn k (a ++ b) = a ++ firstn (k - List.length a) b.
Proof.
  intros H. rewrite firstn_app.
  now rewrite firstn_all2 by exact H.
Qed.

(** X16.  On a ready Encrypter, a sink with room for fewer bytes than the
    envelope makes [Write] fail with an Encode error; what has reached the
    sink is the part of the envelope (metadata, salt, nonce, ciphertext, in
    that order) that fits, and the sink is full. *)
Theorem Encrypter_Write_short_sink (e : celo) (m : Metadata) (w : Sink)
    (k : nat) :
  IsReady e = true ->
  metadata e = Some m ->
  room w = Some k ->
  (k < List.length (Metadata_Bytes m ++ bytes_of (salt e)
                    ++ bytes_of (nonce e) ++ bytes_of (ciphertext e)))%nat ->
  exists n err,
    Encrypter_Write e w
    = Some (mkSink (written w
                    ++ firstn k (Metadata_Bytes m ++ bytes_of (salt e)
                                 ++ bytes_of (nonce e)
                                 ++ bytes_of (ciphertext e)))
              (Some 0%nat),
            (n, Some err)) /\
    Is errors.Encode err = true.
Proof.
  intros Hready Hm Hroom Hk. unfold Encrypter_Write.
  rewrite Hready, Hm. cbn [negb].
  set (a := Metadata_Bytes m) in *. set (b := bytes_of (salt e)) in *.
  set (c := bytes_of (nonce e)) in *. set (d := bytes_of (ciphertext e)) in *.
  rewrite !length_app in Hk.
  destruct (Nat.le_gt_cases (List.length a) k) as [Ha|Ha].
  2:{ rewrite (Sink_Write_short w a k Hroom Ha).
      rewrite firstn_app. replace (k - List.length a)%nat with 0%nat by lia.
      cbn [firstn]. rewrite app_nil_r. do 2 eexists. split; reflexivity. }
  rewrite Sink_Write_ok by (unfold accepts; now rewrite Hroom).
  assert (Hr1 : room (fed w a) = Some (k - List.length a)%nat)
    by (unfold fed; cbn [room]; now rewrite Hroom).
  rewrite (firstn_app_fit a _ k Ha).
  destruct (Nat.le_gt_cases (List.length b) (k - List.length a)) as [Hb|Hb].
  2:{ rewrite (Sink_Write_short (fed w a) b _ Hr1 Hb).
      rewrite firstn_app.
      replace (k - List.length a - List.length b)%nat with 0%nat by lia.
      cbn [firstn fed written]. rewrite app_nil_r, <- app_assoc.
      do 2 eexists. split; reflexivity. }
  rewrite Sink_Write_ok by (unfold accepts; now rewrite Hr1).
  assert (Hr2 : room (fed (fed w a) b)
                = Some (k - List.length a - List.length b)%nat)
    by (unfold fed at 1; cbn [room]; now rewrite Hr1).
  rewrite (firstn_app_fit b _ _ Hb).
  destruct (Nat.le_gt_cases (List.length c)
              (k - List.length a - List.length b)) as [Hc|Hc].
  2:{ rewrite (Sink_Write_short (fed (fed w a) b) c _ Hr2 Hc).
      rewrite firstn_app.
      replace (k - List.length a - List.length b - List.length c)%nat
        with 0%nat by lia.
      cbn [firstn fed written]. rewrite app_nil_r, <- !app_assoc.
      do 2 eexists. split; reflexivity. }
  rewrite Sink_Write_ok by (unfold accepts; now rewrite Hr2).
  assert (Hr3 : room (fed (fed (fed w a) b) c)
                = Some (k - List.length a - List.length b - List.length c)%nat)
    by (unfold fed at 1; cbn [room]; now rewrite Hr2).
  rewrite (firstn_app_fit c _ _ Hc).
  rewrite (Sink_Write_short _ d _ Hr3) by lia.
  cbn [fed written]. rewrite <- !app_assoc.
  do 2 eexists. split; reflexivity.
Qed.

Lemma Encrypter_Write_short_sink_witness :
  exists n err,
    Encrypter_Write encrypter_hello (mkSink [] (Some 40%nat))
    = Some (mkSink (firstn 40 envelope_hello) (Some 0%nat), (n, Some err)) /\
    Is errors.Encode err = true.
Proof.
  apply (@Encrypter_Write_short_sink encrypter_hello newCurrentMetadata
           (mkSink [] (Some 40%nat)) 40%nat).
  - reflexivity.
  - reflexivity.
  - reflexivity.
  - vm_compute. lia.
Defined.

Section InitAfterWipe.

Context {P : Primitives}.


End InitAfterWipe.


(** ** celo.go: names and Config *)

(** X18.  For every configured extension, the empty one included, the
    decrypted name of the encrypted name of a non-empty name is that
    name. *)
Theorem file_names_roundtrip (c : celo) (name : string) :
  name <> "" ->
  GetDecryptedFileName c (GetEncryptedFileName c name) = name.
Proof.
  intros Hname. destruct (String.eqb_spec (ext c) "") as [He|He].
  - unfold GetDecryptedFileName, GetEncryptedFileName. now rewrite He.
  - assert (Henc : GetEncryptedFileName c name
                   = (name ++ suffix_of (ext c))%string).
    { unfold GetEncryptedFileName.
      destruct (String.eqb_spec (ext c) ""); [contradiction|].
      now rewrite dotted_ext. }
    rewrite Henc. now apply GetDecryptedFileName_strips.
Qed.

Lemma file_names_roundtrip_witness :
  GetDecryptedFileName (SetExtension ".enc" NewEncrypter)
    (GetEncryptedFileName (SetExtension ".enc" NewEncrypter) "book_draft.md")
  = "book_draft.md" /\
  GetEncryptedFileName (SetExtension ".enc" NewEncrypter) "book_draft.md"
  = "book_draft.md.enc".
Proof.
  split; [|reflexivity].
  apply (file_names_roundtrip (SetExtension ".enc" NewEncrypter) "book_draft.md").
  discriminate.
Defined.

(** X19.  [Config] with a list of [SetExtension] options leaves the session
    with the extension of the last one and changes nothing else; with no
    option it changes nothing. *)
Theorem Config_SetExtension (exts : list string) (c : celo) :
  Config (map SetExtension_option exts) c
  = match rev exts with
    | [] => c
    | last :: _ => set_ext c last
    end.
Proof.
  revert c. induction exts as [|x exts IH]; intros c; [reflexivity|].
  cbn [map Config fold_left]. change (fold_left _ _ ?a) with
    (Config (map SetExtension_option exts) a).
  rewrite IH. cbn [rev]. destruct (rev exts) as [|l ls]; reflexivity.
Qed.

(** ** phrase.go: ReadAndConfirmPhrase *)

Lemma ReadPhrase_line (label : bool) (line : bytes)
    (rest : list (bytes + error)) (out : string) :
  exists out',
    ReadPhrase label (mkTerminal (inl line :: rest) out)
    = (mkTerminal rest out', (line, None)).
Proof. destruct label; eexists; reflexivity. Qed.

(** The loop passes over [k] empty answers while the counter stays below
    [retries]. *)
Lemma ReadAndConfirmPhrase_loop_skips (k fuel : nat) (retries i : Z)
    (rest : list (bytes + error)) (out : string) :
  0 <= i -> (k = 0%nat \/ i + Z.of_nat k <= retries) -> retries < 2 ^ 32 ->
  exists out',
    ReadAndConfirmPhrase_loop (k + fuel) retries i
      (mkTerminal (repeat (inl []) k ++ rest) out)
    = ReadAndConfirmPhrase_loop fuel retries (i + Z.of_nat k)
        (mkTerminal rest out').
Proof.
  revert i out. induction k as [|k IH]; intros i out Hi Hk Hr.
  - exists out. cbn [repeat app Nat.add]. now rewrite Z.add_0_r.
  - destruct Hk as [Hk|Hk]; [discriminate Hk|].
    destruct (ReadPhrase_line true [] (repeat (inl []) k ++ rest) out)
      as (out1 & Hread).
    destruct (IH (i + 1) (stdout (fmt_Println (Kind_String errors.PhraseIsEmpty)
                                    (mkTerminal (repeat (inl []) k ++ rest) out1))))
      as (out' & Hrec); try lia.
    exists out'. cbn [repeat app Nat.add ReadAndConfirmPhrase_loop].
    unfold bytes in *. rewrite Hread.
    replace ((retries =? 0) || (i <=? retries)) with true
      by (symmetry; apply orb_true_iff; right; apply Z.leb_le; lia).
    change (len [] =? 0) with true. cbv iota.
    replace (i <? retries) with true by (symmetry; apply Z.ltb_lt; lia).
    rewrite Z.mod_small by lia.
    unfold fmt_Println, fmt_Print in *. cbn [answers stdout] in *.
    rewrite Hrec. f_equal. lia.
Qed.

(** X20.  After fewer empty answers than [retries], the first non-empty
    answer and its confirmation decide: when they are equal the phrase is
    returned, when they differ the result is a PhraseMismatch error, and in
    both cases no further answer is read, whatever [retries] is. *)
Theorem ReadAndConfirmPhrase_decides (retries : Z) (k : nat) (p q : bytes)
    (rest : list (bytes + error)) (out : string) :
  0 <= retries < 2 ^ 32 ->
  (k = 0%nat \/ Z.of_nat k < retries) ->
  p <> [] ->
  exists out',
    ReadAndConfirmPhrase retries
      (mkTerminal (repeat (inl []) k ++ inl p :: inl q :: rest) out)
    = Some (mkTerminal rest out',
            if bytes_Equal p q then (p, None)
            else ([], Some (E errors.PhraseMismatch
                              "phrase.ReadAndConfirmPhrase" None))).
Proof.
  intros Hr Hk Hp.
  destruct (ReadAndConfirmPhrase_loop_skips k (S (Z.to_nat retries - k)) retries 1
              (inl p :: inl q :: rest) out) as (out1 & Hskip); try lia.
  destruct (ReadPhrase_line true p (inl q :: rest) out1) as (out2 & Hreadp).
  destruct (ReadPhrase_line false q rest
              (stdout (fmt_Print (Message_String PhraseConfirm ++ " ")
                         (mkTerminal (inl q :: rest) out2))))
    as (out3 & Hreadq).
  unfold fmt_Print in Hreadq. cbn [answers stdout] in Hreadq.
  assert (Hcond : (retries =? 0) || (1 + Z.of_nat k <=? retries) = true).
  { apply orb_true_iff. destruct Hk as [->|Hk].
    - destruct (Z.eqb_spec retries 0); [now left|].
      right. apply Z.leb_le. cbn. lia.
    - right. apply Z.leb_le. lia. }
  assert (Hlen : (len p =? 0) = false)
    by (apply Z.eqb_neq; unfold len; destruct p;
        [contradiction | cbn [List.length]; lia]).
  destruct (bytes_Equal p q) eqn:Heq;
    [|destruct (1 + Z.of_nat k <? retries) eqn:Hlt];
    eexists; unfold ReadAndConfirmPhrase; unfold bytes in *;
    (replace (S (Z.to_nat retries)) with (k + S (Z.to_nat retries - k))%nat
       by lia);
    rewrite Hskip; cbn [ReadAndConfirmPhrase_loop];
    rewrite Hcond, Hreadp, Hlen; unfold fmt_Print at 1; cbn [answers stdout];
    rewrite Hreadq, Heq; rewrite ?Hlt;
    unfold fmt_Println, fmt_Print; cbn [answers stdout]; reflexivity.
Qed.

Lemma ReadAndConfirmPhrase_decides_witness :
  (exists out',
     ReadAndConfirmPhrase 3 terminal_confirmed
     = Some (mkTerminal [] out', (phrase_ok, None))) /\
  (exists out',
     ReadAndConfirmPhrase 3 terminal_mismatch
     = Some (mkTerminal [inl phrase_ok; inl phrase_ok] out',
             ([], Some (E errors.PhraseMismatch
                          "phrase.ReadAndConfirmPhrase" None)))).
Proof.
  split.
  - apply (ReadAndConfirmPhrase_decides 3 1 phrase_ok phrase_ok [] "").
    + lia.
    + right. lia.
    + discriminate.
  - apply (ReadAndConfirmPhrase_decides 3 0 phrase_ok phrase_wrong
             [inl phrase_ok; inl phrase_ok] "").
    + lia.
    + left. reflexivity.
    + discriminate.
Defined.

(** X21.  Empty answers are asked again only while the counter is below
    [retries]: the one that makes [retries] of them ends the call with a
    PhraseIsEmpty error, and with [retries = 0] the very first one does;
    what follows on the terminal is not read. *)
Theorem ReadAndConfirmPhrase_empty (retries : Z)
    (rest : list (bytes + error)) (out : string) :
  0 <= retries < 2 ^ 32 ->
  exists out',
    ReadAndConfirmPhrase retries
      (mkTerminal (repeat (inl []) (Z.to_nat (Z.max retries 1)) ++ rest) out)
    = Some (mkTerminal rest out',
            ([], Some (E errors.PhraseIsEmpty
                         "phrase.ReadAndConfirmPhrase" None))).
Proof.
  intros Hr.
  set (k := (Z.to_nat (Z.max retries 1) - 1)%nat).
  destruct (ReadAndConfirmPhrase_loop_skips k (S (Z.to_nat retries - k)) retries 1
              (repeat (inl []) 1 ++ rest) out) as (out1 & Hskip);
    try (subst k; lia).
  destruct (ReadPhrase_line true [] rest out1) as (out2 & Hread).
  assert (Hcond : (retries =? 0) || (1 + Z.of_nat k <=? retries) = true).
  { apply orb_true_iff. destruct (Z.eqb_spec retries 0); [now left|].
    right. apply Z.leb_le. subst k. lia. }
  assert (Hlast : (1 + Z.of_nat k <? retries) = false)
    by (apply Z.ltb_ge; subst k; lia).
  eexists. unfold ReadAndConfirmPhrase. unfold bytes in *.
  replace (Z.to_nat (Z.max retries 1)) with (k + 1)%nat by (subst k; lia).
  rewrite repeat_app, <- app_assoc.
  replace (S (Z.to_nat retries)) with (k + S (Z.to_nat retries - k))%nat
    by (subst k; lia).
  rewrite Hskip. cbn [ReadAndConfirmPhrase_loop repeat app].
  rewrite Hcond, Hread. change (len [] =? 0) with true. cbv iota.
  rewrite Hlast. reflexivity.
Qed.

Lemma ReadAndConfirmPhrase_empty_witness :
  exists out',
    ReadAndConfirmPhrase 0 (mkTerminal [inl []; inl phrase_ok; inl phrase_ok] "")
    = Some (mkTerminal [inl phrase_ok; inl phrase_ok] out',
            ([], Some (E errors.PhraseIsEmpty
                         "phrase.ReadAndConfirmPhrase" None))).
Proof.
  apply (ReadAndConfirmPhrase_empty 0 [inl phrase_ok; inl phrase_ok] "").
  lia.
Defined.

(** [ReadPhrase] returns the line read, or a PhraseOther error. *)
Lemma ReadPhrase_cases (label : bool) (t : Terminal) :
  exists t',
    (exists line, ReadPhrase label t = (t', (line, None))) \/
    (exists inner,
       ReadPhrase label t
       = (t', ([], Some (Error "" "phrase.ReadPhrase" errors.PhraseOther inner)))).
Proof.
  unfold ReadPhrase, terminal_ReadPassword.
  destruct label; cbn [fmt_Print answers];
    destruct (answers t) as [|[line|err] rest];
    eexists; try (left; eexists; reflexivity);
    right; try (eexists; reflexivity);
    destruct err; eexists; reflexivity.
Qed.

Lemma ReadAndConfirmPhrase_loop_returns (fuel : nat) (retries i : Z)
    (t : Terminal) :
  0 <= i -> retries < 2 ^ 32 -> (0 < fuel)%nat -> retries - i < Z.of_nat fuel ->
  exists t' p err,
    ReadAndConfirmPhrase_loop fuel retries i t = Some (t', (p, err)) /\
    match err with
    | None => p <> []
    | Some e =>
        p = [] /\
        (Is errors.PhraseOther e || Is errors.PhraseIsEmpty e
         || Is errors.PhraseMismatch e) = true
    end.
Proof.
  revert i t. induction fuel as [|fuel IH]; intros i t Hi Hr Hpos Hfuel; [lia|].
  cbn [ReadAndConfirmPhrase_loop].
  destruct ((retries =? 0) || (i <=? retries));
    [|do 3 eexists; split; [reflexivity | split; reflexivity]].
  destruct (ReadPhrase_cases true t) as (t1 & [(first & ->)|(inner & ->)]);
    [|do 3 eexists; split; [reflexivity | split; reflexivity]].
  destruct (Z.eqb_spec (len first) 0) as [Hempty|Hfull].
  - destruct (Z.ltb_spec i retries) as [Hlt|Hge];
      [|do 3 eexists; split; [reflexivity | split; reflexivity]].
    rewrite Z.mod_small by lia. apply IH; lia.
  - destruct (ReadPhrase_cases false
                (fmt_Print (Message_String PhraseConfirm ++ " ") t1))
      as (t2 & [(second & ->)|(inner & ->)]);
      [|do 3 eexists; split; [reflexivity | split; reflexivity]].
    destruct (bytes_Equal first second).
    + do 3 eexists. split; [reflexivity|]. intros ->. now apply Hfull.
    + do 3 eexists. split; [reflexivity | split; reflexivity].
Qed.

(** X22.  [ReadAndConfirmPhrase] returns for every number of retries and
    every terminal: the loop ends within the iterations its counter allows.
    A phrase it returns is not empty; an error it returns comes with no
    phrase and is of kind PhraseOther, PhraseIsEmpty or PhraseMismatch. *)
Theorem ReadAndConfirmPhrase_returns (retries : Z) (t : Terminal) :
  0 <= retries < 2 ^ 32 ->
  exists t' p err,
    ReadAndConfirmPhrase retries t = Some (t', (p, err)) /\
    match err with
    | None => p <> []
    | Some e =>
        p = [] /\
        (Is errors.PhraseOther e || Is errors.PhraseIsEmpty e
         || Is errors.PhraseMismatch e) = true
    end.
Proof.
  intros Hr. unfold ReadAndConfirmPhrase.
  apply ReadAndConfirmPhrase_loop_returns; lia.
Qed.

Lemma ReadAndConfirmPhrase_returns_witness :
  exists t' p err,
    ReadAndConfirmPhrase 3 (mkTerminal [inl []; inl []; inr io_EOF] "")
    = Some (t', (p, err)) /\
    match err with
    | None => p <> []
    | Some e =>
        p = [] /\
        (Is errors.PhraseOther e || Is errors.PhraseIsEmpty e
         || Is errors.PhraseMismatch e) = true
    end.
Proof.
  apply (ReadAndConfirmPhrase_returns 3
           (mkTerminal [inl []; inl []; inr io_EOF] "")).
  lia.
Defined.

(** ** file/file.go: Create *)

(** [Is] on an [E], or an [E] with an entity, of a kind that is not
    [Other]. *)
Lemma Is_E_beq (kind k : errors.Kind) (op : string) (err : option error) :
  kind <> errors.Other -> Is k (E kind op err) = errors.Kind_beq kind k.
Proof.
  intros Hk. pose proof (Kind_beq_Other kind Hk) as Hno.
  destruct err as [[| | | | |ent o pk perr]|]; simpl; rewrite ?Hno; simpl;
    rewrite ?Hno; reflexivity.
Qed.

Lemma Is_E_Entity_beq (kind k : errors.Kind) (op ent : string)
    (err : option error) :
  kind <> errors.Other ->
  Is k (E_Entity kind op ent err) = errors.Kind_beq kind k.
Proof.
  intros Hk. pose proof (Kind_beq_Other kind Hk) as Hno.
  destruct err as [[| | | | |pent o pk perr]|]; simpl; rewrite ?Hno; simpl;
    rewrite ?Hno; reflexivity.
Qed.

Ltac kind_of_E :=
  repeat first
    [ rewrite Is_E_beq by discriminate
    | rewrite Is_E_Entity_beq by discriminate
    | match goal with
      | |- context [match ?e with Error _ _ _ _ => _ | _ => _ end] =>
          is_var e; destruct e
      end ];
  cbn [Is errors.Kind_beq negb orb andb].

Section FileProperties.

Context {P : Primitives} {O : OS}.

(** The kinds of the errors of [file.Create]; none of them comes with a
    file. *)
Lemma file_Create_error (name : string) (overwrite : bool) (fs fs' : FS)
    (f : option string) (existed : bool) (err : error) :
  file_Create name overwrite fs = (fs', (f, existed, Some err)) ->
  f = None /\
  (Is errors.Permissions err || Is errors.IsDir err || Is errors.Exist err
   || Is errors.Create err) = true.
Proof.
  unfold file_Create.
  destruct (os_Stat name fs) as [isDir|e0].
  - destruct isDir; [intros H; injection H as <- <- <- <-; kind_of_E; split; reflexivity|].
    destruct overwrite; cbn [negb].
    + destruct (os_Create name fs) as [fs1 [e1|]]; intros H;
        [injection H as <- <- <- <-; kind_of_E; split; reflexivity | discriminate].
    + intros H; injection H as <- <- <- <-. kind_of_E. split; reflexivity.
  - destruct (os_IsNotExist e0).
    + destruct (os_Create name fs) as [fs1 [e1|]]; intros H;
        [injection H as <- <- <- <-; kind_of_E; split; reflexivity | discriminate].
    + destruct (os_IsPermission e0); intros H; injection H as <- <- <- <-;
        kind_of_E; split; reflexivity.
Qed.

(** X23.  [file.Create] never returns a file together with [exist = true]:
    the flag is set only when [os.Stat] fails with something else than
    not-exist, and the call then fails with a Permissions error and touches
    nothing.  A directory is refused with IsDir, and an existing file
    without the overwrite flag with Exist, both before [os.Create] is
    reached. *)
Theorem file_Create_result (name : string) (overwrite : bool) (fs fs' : FS)
    (f : option string) (existed : bool) (err : option error) :
  file_Create name overwrite fs = (fs', (f, existed, err)) ->
  (f <> None -> f = Some name /\ existed = false /\ err = None) /\
  (existed = true ->
   f = None /\ fs' = fs /\ fails_with errors.Permissions err = true) /\
  (forall isDir, os_Stat name fs = inl isDir ->
     isDir = true \/ overwrite = false ->
     f = None /\ fs' = fs /\
     fails_with (if isDir then errors.IsDir else errors.Exist) err = true).
Proof.
  unfold file_Create.
  destruct (os_Stat name fs) as [isDir|e0].
  - destruct isDir.
    + intros H; injection H as <- <- <- <-. split; [now intros []|].
      split; [discriminate|]. intros ? [= <-] _. cbn [fails_with]. kind_of_E.
      repeat split; reflexivity.
    + destruct overwrite; cbn [negb].
      * destruct (os_Create name fs) as [fs1 [e1|]]; intros H;
          injection H as <- <- <- <-;
          (split; [try (now intros []); now repeat split|]);
          (split; [discriminate|]); intros ? [= <-] [?|?]; discriminate.
      * intros H; injection H as <- <- <- <-. split; [now intros []|].
        split; [discriminate|]. intros ? [= <-] _. cbn [fails_with]. kind_of_E.
        repeat split; reflexivity.
  - destruct (os_IsNotExist e0).
    + destruct (os_Create name fs) as [fs1 [e1|]]; intros H;
        injection H as <- <- <- <-; cbn [negb];
        (split; [try (now intros []); now repeat split|]);
        (split; [discriminate|]); discriminate.
    + destruct (os_IsPermission e0); intros H; injection H as <- <- <- <-;
        cbn [negb]; (split; [now intros []|]);
        (split; [|discriminate]); intros _; cbn [fails_with];
        kind_of_E; repeat split; reflexivity.
Qed.

End FileProperties.

Lemma file_Create_result_witness :
  exists err,
    file_Create (O:=Disk.os) "book_draft.md" false disk_draft
    = (disk_draft, (None, false, Some err)) /\
    Is errors.Exist err = true /\
    file_Create (O:=Disk.os) "book_draft.md" true disk_draft
    = (Disk.mkState [("book_draft.md", [])] ["notes"] 1000,
       (Some "book_draft.md", false, None)).
Proof.
  assert (H : file_Create (O:=Disk.os) "book_draft.md" false disk_draft
              = (disk_draft,
                 (None, false, Some (E errors.Exist "file.Create" None))))
    by reflexivity.
  destruct (@file_Create_result Disk.os "book_draft.md" false disk_draft
              disk_draft None false _ H) as (_ & _ & Hrefused).
  destruct (Hrefused false eq_refl (or_intror eq_refl)) as (_ & _ & Hk).
  eexists. split; [exact H|]. split; [exact Hk | reflexivity].
Defined.

(** ** encrypter.go and decrypter.go: the file operations *)

Lemma of_kind_E (ks : list errors.Kind) (kind : errors.Kind) (op : string)
    (err : option error) :
  kind <> errors.Other -> In kind ks -> of_kind ks (E kind op err).
Proof.
  intros Hk Hin. pose proof (Kind_beq_Other kind Hk) as Hno. unfold E.
  destruct err as [[| | | | |ent o pk perr]|]; rewrite ?Hno;
    unfold of_kind; do 4 eexists; (split; [reflexivity|]); now split.
Qed.

Lemma of_kind_Is_false (ks : list errors.Kind) (k : errors.Kind) (err : error) :
  of_kind ks err -> ~ In k ks -> Is k err = false.
Proof.
  intros (ent & op & k0 & inner & -> & Hk0 & Hin) Hnot. cbn [Is].
  rewrite (Kind_beq_Other k0 Hk0). cbn [negb].
  destruct (errors.Kind_beq k0 k) eqn:Heq; [|reflexivity].
  apply Kind_beq_eq in Heq. subst k0. contradiction.
Qed.

Lemma of_kind_Is_some (ks : list errors.Kind) (err : error) :
  of_kind ks err -> exists k, In k ks /\ Is k err = true.
Proof.
  intros (ent & op & k0 & inner & -> & Hk0 & Hin). exists k0.
  split; [exact Hin|]. cbn [Is]. rewrite (Kind_beq_Other k0 Hk0). cbn [negb].
  apply Kind_beq_refl.
Qed.

Lemma of_kind_weaken (ks ks' : list errors.Kind) (err : error) :
  of_kind ks err -> incl ks ks' -> of_kind ks' err.
Proof.
  intros (ent & op & k0 & inner & -> & Hk0 & Hin) Hincl.
  do 4 eexists. split; [reflexivity|]. split; [exact Hk0 | now apply Hincl].
Qed.

Ltac of_kind_E :=
  first
    [ apply of_kind_E; [discriminate | cbn [In]; intuition congruence]
    | repeat match goal with
             | |- context [match ?e with Error _ _ _ _ => _ | _ => _ end] =>
                 is_var e; destruct e
             end;
      unfold of_kind; do 4 eexists; (split; [reflexivity|]);
      (split; [discriminate | cbn [In]; intuition congruence]) ].

Lemma ReadFull_error_of_kind (kind : errors.Kind) (ks : list errors.Kind)
    (op : string) (err : error) :
  kind <> errors.Other -> In kind ks -> of_kind ks (E kind op (Some err)).
Proof. intros. now apply of_kind_E. Qed.

Lemma ValidateMetadata_of_kind (sig v res : bytes) (err : error) :
  ValidateMetadata sig v res = Some err ->
  of_kind [errors.Signature; errors.Incompatible; errors.NonceSize] err.
Proof.
  unfold ValidateMetadata. intros H.
  repeat match type of H with
         | (if ?c then _ else _) = _ => destruct c
         end; try discriminate; injection H as <-; of_kind_E.
Qed.

Lemma DecodeMetadata_of_kind (r r' : Reader) (m : option Metadata) (n : Z)
    (err : error) :
  DecodeMetadata r = (r', (m, n, Some err)) ->
  of_kind [errors.Metadata; errors.Signature; errors.Incompatible;
           errors.NonceSize] err.
Proof.
  unfold DecodeMetadata.
  destruct (ReadFull r 8) as [r1 [[sig n1] [e1|]]];
    [intros H; injection H as <- <- <- <-; of_kind_E|].
  destruct (ReadFull r1 4) as [r2 [[v n2] [e2|]]];
    [intros H; injection H as <- <- <- <-; of_kind_E|].
  destruct (ReadFull r2 20) as [r3 [[res n3] [e3|]]];
    [intros H; injection H as <- <- <- <-; of_kind_E|].
  destruct (ValidateMetadata sig v res) as [e|] eqn:Hvalid; [|discriminate].
  intros H; injection H as <- <- <- <-.
  apply ValidateMetadata_of_kind in Hvalid.
  eapply of_kind_weaken; [exact Hvalid|]. intros k Hk. cbn [In] in *. tauto.
Qed.

Lemma Decrypter_Read_of_kind (d d' : celo) (r r' : Reader) (n : Z)
    (err : error) :
  Decrypter_Read d r = Some (d', r', (n, Some err)) ->
  of_kind [errors.Metadata; errors.Signature; errors.Incompatible;
           errors.NonceSize; errors.Salt; errors.Nonce] err.
Proof.
  unfold Decrypter_Read.
  destruct (DecodeMetadata r) as [r1 [[m n1] [e1|]]] eqn:Hm.
  - intros H; injection H as <- <- <- <-. apply DecodeMetadata_of_kind in Hm.
    eapply of_kind_weaken; [exact Hm|]. intros k Hk. cbn [In] in *. tauto.
  - destruct (make_bytes _) as [zs|]; [|discriminate].
    destruct (ReadFull r1 _) as [r2 [[s n2] [e2|]]];
      [intros H; injection H as <- <- <- <-; of_kind_E|].
    match goal with
    | |- context [if ?c then set_cipher _ None else _] => destruct c
    end;
      (destruct (make_bytes _) as [zn|]; [|discriminate]);
      (destruct (ReadFull r2 _) as [r3 [[nb n3] [e3|]]];
         [|cbn [ReadAll]; discriminate]);
      intros H; injection H as <- <- <- <-; of_kind_E.
Qed.

Section FileOperations.

Context {P : Primitives} {O : OS}.

Lemma Encrypter_Encrypt_of_kind (K Pt : bytes) (e e' : celo)
    (rnd rnd' : Reader) (ct : bytes) (err : error) :
  Encrypter_Encrypt K Pt e rnd = Some (e', rnd', (ct, Some err)) ->
  of_kind [errors.Salt; errors.Cipher; errors.Encrypt] err.
Proof.
  unfold Encrypter_Encrypt, Encrypter_Init.
  destruct (initialized e && preserveKey e).
  - destruct (cipher e) as [c|]; [|discriminate]. unfold Cipher_Encrypt.
    destruct (ReadFull rnd _) as [r1 [[nc n1] [e1|]]]; [|discriminate].
    intros H; injection H as <- <- <- <-. of_kind_E.
  - unfold NewSalt. destruct (make_bytes _); [|discriminate].
    destruct (ReadFull rnd _) as [r1 [[s n1] [e1|]]];
      [intros H; injection H as <- <- <- <-; of_kind_E|].
    unfold NewCipher. destruct (aes_key_size_ok _).
    + cbn [cipher set_cipher]. unfold Cipher_Encrypt.
      destruct (ReadFull r1 _) as [r2 [[nc n2] [e2|]]]; [|discriminate].
      intros H; injection H as <- <- <- <-. of_kind_E.
    + intros H; injection H as <- <- <- <-. of_kind_E.
Qed.

Lemma Encrypter_Encrypt_ext (K Pt : bytes) (e e' : celo) (rnd rnd' : Reader)
    (res : bytes * option error) :
  Encrypter_Encrypt K Pt e rnd = Some (e', rnd', res) -> ext e' = ext e.
Proof.
  unfold Encrypter_Encrypt, Encrypter_Init.
  destruct (initialized e && preserveKey e).
  - destruct (cipher e) as [c|]; [|discriminate].
    destruct (Cipher_Encrypt _ _ _ _) as [r1 [[nc ct] [e1|]]];
      intros H; injection H as <- <- <-; reflexivity.
  - destruct (NewSalt _ _) as [[r1 [[s n1] [e1|]]]|]; [| |discriminate].
    + intros H; injection H as <- <- <-. reflexivity.
    + destruct (NewCipher _ _ _) as [c [e2|]].
      * intros H; injection H as <- <- <-. reflexivity.
      * cbn [cipher set_cipher]. destruct c as [c|]; [|discriminate].
        destruct (Cipher_Encrypt _ _ _ _) as [r2 [[nc ct] [e3|]]];
          intros H; injection H as <- <- <-; reflexivity.
Qed.

Lemma Decrypter_Decrypt_of_kind (K : bytes) (d d' : celo) (pt : bytes)
    (err : error) :
  Decrypter_Decrypt K d = Some (d', (pt, Some err)) ->
  of_kind [errors.NotReady; errors.Cipher; errors.Decrypt] err.
Proof.
  unfold Decrypter_Decrypt.
  destruct (IsReady d); cbn [negb];
    [|intros H; injection H as <- <- <-; of_kind_E].
  assert (Hc : forall d1 c1,
             match Cipher_Decrypt c1 (bytes_of (nonce d1)) (bytes_of (ciphertext d1)) with
             | Some (_, Some err) => Some (d1, ([], Some err))
             | Some (plaintext, None) => Some (d1, (plaintext, None))
             | None => None
             end = Some (d', (pt, Some err)) ->
             of_kind [errors.NotReady; errors.Cipher; errors.Decrypt] err).
  { intros d1 c1. unfold Cipher_Decrypt.
    destruct (len _ =? gcmStandardNonceSize); [|discriminate].
    destruct (gcm_Open _ _ _ _); [discriminate|].
    intros H; injection H as <- <- <-. of_kind_E. }
  destruct (cipher d) as [c|] eqn:Hcd.
  - rewrite Hcd. apply Hc.
  - unfold Decrypter_initCipher, NewCipher. destruct (aes_key_size_ok _).
    + cbn [cipher set_cipher]. apply Hc.
    + intros H; injection H as <- <- <-. of_kind_E.
Qed.

Lemma file_Create_of_kind (name : string) (overwrite : bool) (fs fs' : FS)
    (f : option string) (existed : bool) (err : error) :
  file_Create name overwrite fs = (fs', (f, existed, Some err)) ->
  of_kind [errors.Permissions; errors.IsDir; errors.Exist; errors.Create] err.
Proof.
  unfold file_Create.
  destruct (os_Stat name fs) as [isDir|e0].
  - destruct isDir; [intros H; injection H as <- <- <- <-; of_kind_E|].
    destruct overwrite; cbn [negb].
    + destruct (os_Create name fs) as [fs1 [e1|]]; intros H;
        [injection H as <- <- <- <-; of_kind_E | discriminate].
    + intros H; injection H as <- <- <- <-. of_kind_E.
  - destruct (os_IsNotExist e0).
    + destruct (os_Create name fs) as [fs1 [e1|]]; intros H;
        [injection H as <- <- <- <-; of_kind_E | discriminate].
    + destruct (os_IsPermission e0); intros H; injection H as <- <- <- <-;
        of_kind_E.
Qed.

Lemma file_Create_file_not_existed (name : string) (overwrite : bool)
    (fs fs' : FS) (f : string) (existed : bool) (err : option error) :
  file_Create name overwrite fs = (fs', (Some f, existed, err)) ->
  f = name /\ existed = false.
Proof.
  unfold file_Create.
  destruct (os_Stat name fs) as [isDir|e0].
  - destruct isDir; [discriminate|]. destruct overwrite; [|discriminate].
    cbn [negb]. destruct (os_Create name fs) as [fs1 [e1|]]; [discriminate|].
    intros H; injection H as <- <- <- <-. now split.
  - destruct (os_IsNotExist e0).
    + destruct (os_Create name fs) as [fs1 [e1|]]; [discriminate|].
      intros H; injection H as <- <- <- <-. now split.
    + destruct (os_IsPermission e0); discriminate.
Qed.

(** X24.  When [EncryptFile] fails with an Encode error, that is when the
    write of the envelope to the created target falls short, it returns no
    name and the last thing it has done is to remove the target, whether
    the target existed before the call or not. *)
Theorem EncryptFile_Encode_failure (K : bytes) (name : string)
    (overwrite removeSource : bool) (e e' : celo) (rnd rnd' : Reader)
    (fs fs' : FS) (encryptedName : string) (err : error) :
  EncryptFile K name overwrite removeSource (e, rnd, fs)
  = Some (e', rnd', fs', (encryptedName, Some err)) ->
  Is errors.Encode err = true ->
  encryptedName = "" /\
  exists fs1, fs' = os_Remove (GetEncryptedFileName e name) fs1.
Proof.
  unfold EncryptFile. intros H Hkind.
  assert (Hno : forall ks, of_kind ks err -> ~ In errors.Encode ks -> False).
  { intros ks Hof Hnot.
    rewrite (of_kind_Is_false ks errors.Encode err Hof Hnot) in Hkind.
    discriminate. }
  destruct (os_Open name fs) as [src|e0].
  2:{ injection H as <- <- <- <- <-. exfalso.
      apply (Hno [errors.Open]); [of_kind_E | cbn [In]; intuition discriminate]. }
  cbn [ReadAll] in H.
  destruct (Encrypter_Encrypt K src e rnd) as [[[e1 r1] [ct [e2|]]]|] eqn:Henc;
    [| |discriminate].
  { injection H as <- <- <- <- <-. exfalso.
    apply Encrypter_Encrypt_of_kind in Henc.
    apply (Hno _ Henc). cbn [In]. intuition discriminate. }
  apply Encrypter_Encrypt_ext in Henc.
  destruct (file_Create _ _ _) as [fs1 [[f existed] cerr]] eqn:Hcreate.
  destruct cerr as [e3|].
  { injection H as <- <- <- <- <-. exfalso.
    apply file_Create_of_kind in Hcreate.
    apply (Hno _ Hcreate). cbn [In]. intuition discriminate. }
  destruct f as [f|]; [|discriminate].
  apply file_Create_file_not_existed in Hcreate as (-> & ->).
  destruct (Encrypter_Write_to _ _ _) as [[fs2 [n [e4|]]]|];
    [| |discriminate].
  - injection H as <- <- <- <- <-. cbn [negb]. split; [reflexivity|].
    exists fs2. unfold GetEncryptedFileName. now rewrite Henc.
  - discriminate.
Qed.

(** X25.  A [DecryptFile] that fails with an error of another kind than
    Permissions, IsDir, Exist or Create (the source cannot be opened, the
    envelope is refused, the phrase is wrong) returns no name and leaves the
    file system as it was. *)
Theorem DecryptFile_failure_keeps_files (K : bytes) (name : string)
    (overwrite removeSource : bool) (d d' : celo) (fs fs' : FS)
    (decryptedName : string) (err : error) :
  DecryptFile K name overwrite removeSource (d, fs)
  = Some (d', fs', (decryptedName, Some err)) ->
  (Is errors.Permissions err || Is errors.IsDir err || Is errors.Exist err
   || Is errors.Create err) = false ->
  decryptedName = "" /\ fs' = fs.
Proof.
  unfold DecryptFile. intros H Hkind.
  destruct (os_Open name fs) as [src|e0];
    [|injection H as <- <- <- <-; now split].
  destruct (Decrypter_Read d src) as [[[d1 r1] [n [e1|]]]|];
    [injection H as <- <- <- <-; now split | | discriminate].
  destruct (Decrypter_Decrypt K d1) as [[d2 [pt [e2|]]]|];
    [injection H as <- <- <- <-; now split | | discriminate].
  exfalso.
  destruct (file_Create _ _ _) as [fs1 [[f existed] cerr]] eqn:Hcreate.
  destruct cerr as [e3|].
  - injection H as <- <- <- <-. apply file_Create_of_kind in Hcreate.
    destruct (of_kind_Is_some _ _ Hcreate) as (k & Hin & Hk).
    cbn [In] in Hin. destruct Hin as [<-|[<-|[<-|[<-|[]]]]];
      rewrite Hk in Hkind; cbn [orb] in Hkind;
      rewrite ?orb_true_r in Hkind; discriminate.
  - destruct f as [f|]; [|discriminate].
    destruct (file_Write f fs1 pt) as [fs2 [n2 [e4|]]]; [|discriminate].
    assert (Hof : of_kind [errors.Create] err)
      by (injection H as <- <- <- <-; of_kind_E).
    destruct (of_kind_Is_some _ _ Hof) as (k & [<-|[]] & Hk).
    rewrite Hk, !orb_true_r in Hkind. discriminate.
Qed.

End FileOperations.

Lemma EncryptFile_Encode_failure_witness :
  exists e' rnd' fs' err,
    EncryptFile (P:=Double.prims) (O:=Disk.os) phrase_ok "book_draft.md"
      false false (NewEncrypter, entropy50, disk_full)
    = Some (e', rnd', fs', ("", Some err)) /\
    Is errors.Encode err = true /\
    Disk.lookup "book_draft.md.celo" (Disk.files fs') = None /\
    exists fs1, fs' = Disk.Remove "book_draft.md.celo" fs1.
Proof.
  assert (H : exists e' rnd' fs' err,
             EncryptFile (P:=Double.prims) (O:=Disk.os) phrase_ok
               "book_draft.md" false false (NewEncrypter, entropy50, disk_full)
             = Some (e', rnd', fs', ("", Some err)) /\
             Is errors.Encode err = true /\
             Disk.lookup "book_draft.md.celo" (Disk.files fs') = None)
    by (do 4 eexists; split; [reflexivity | split; reflexivity]).
  destruct H as (e' & rnd' & fs' & err & H & Hk & Hgone).
  destruct (@EncryptFile_Encode_failure Double.prims Disk.os phrase_ok
              "book_draft.md" false false NewEncrypter e' entropy50 rnd'
              disk_full fs' "" err H Hk) as (_ & fs1 & Hfs).
  exists e', rnd', fs', err. split; [exact H|]. split; [exact Hk|].
  split; [exact Hgone|]. exists fs1. exact Hfs.
Defined.

Lemma DecryptFile_failure_keeps_files_witness :
  exists d' err,
    DecryptFile (P:=Double.prims) (O:=Disk.os) phrase_wrong
      "book_draft.md.celo" true true (NewDecrypter, disk_encrypted)
    = Some (d', disk_encrypted, ("", Some err)) /\
    Is errors.Decrypt err = true.
Proof.
  assert (H : exists d' fs' err,
             DecryptFile (P:=Double.prims) (O:=Disk.os) phrase_wrong
               "book_draft.md.celo" true true (NewDecrypter, disk_encrypted)
             = Some (d', fs', ("", Some err)) /\
             Is errors.Decrypt err = true /\
             (Is errors.Permissions err || Is errors.IsDir err
              || Is errors.Exist err || Is errors.Create err) = false)
    by (do 3 eexists; split; [reflexivity | split; reflexivity]).
  destruct H as (d' & fs' & err & H & Hk & Hno).
  destruct (@DecryptFile_failure_keeps_files Double.prims Disk.os phrase_wrong
              "book_draft.md.celo" true true NewDecrypter d' disk_encrypted fs'
              "" err H Hno) as (_ & Hfs).
  subst fs'. exists d', err. split; [exact H | exact Hk].
Defined.

Section Batches.

Context {P : Primitives} {O : OS}.

(** [EncryptFile] keeps the extension of the session; the name it returns
    on success is the encrypted name of the source. *)
Lemma EncryptFile_name (K : bytes) (name : string)
    (overwrite removeSource : bool) (e e' : celo) (rnd rnd' : Reader)
    (fs fs' : FS) (encryptedName : string) (err : option error) :
  EncryptFile K name overwrite removeSource (e, rnd, fs)
  = Some (e', rnd', fs', (encryptedName, err)) ->
  ext e' = ext e /\
  (err = None -> encryptedName = GetEncryptedFileName e name).
Proof.
  unfold EncryptFile.
  destruct (os_Open name fs) as [src|e0];
    [|intros H; injection H as <- <- <- <- <-; split; [reflexivity|discriminate]].
  cbn [ReadAll].
  destruct (Encrypter_Encrypt K src e rnd) as [[[e1 r1] [ct [e2|]]]|] eqn:Henc;
    [| |discriminate]; apply Encrypter_Encrypt_ext in Henc.
  { intros H; injection H as <- <- <- <- <-. split; [exact Henc|discriminate]. }
  destruct (file_Create _ _ _) as [fs1 [[f existed] [e3|]]];
    [intros H; injection H as <- <- <- <- <-; split; [exact Henc|discriminate]|].
  destruct f as [f|]; [|discriminate].
  destruct (Encrypter_Write_to _ _ _) as [[fs2 [n [e4|]]]|];
    [| |discriminate]; intros H; injection H as <- <- <- <- <-;
    (split; [exact Henc|]); [discriminate|].
  intros _. unfold GetEncryptedFileName. now rewrite Henc.
Qed.

Lemma EncryptMultipleFiles_loop_accounting (K : bytes)
    (overwrite removeSource : bool) (fileNames : list string) :
  forall (e : celo) (rnd : Reader) (fs : FS) (names : list string)
         (errs : list error) (st' : World) (names' : list string)
         (errs' : list error),
    EncryptMultipleFiles_loop K fileNames overwrite removeSource (e, rnd, fs)
      names errs = Some (st', (names', errs')) ->
    exists newNames newErrs,
      names' = names ++ newNames /\ errs' = errs ++ newErrs /\
      (List.length newNames + List.length newErrs
       = List.length fileNames)%nat /\
      Forall (fun x => Is errors.Encrypt x = true) newErrs /\
      Forall (fun n => exists f, In f fileNames /\ n = GetEncryptedFileName e f)
        newNames.
Proof.
  induction fileNames as [|f rest IH];
    intros e rnd fs names errs st' names' errs' H.
  - cbn [EncryptMultipleFiles_loop] in H. injection H as <- <- <-.
    exists [], []. rewrite !app_nil_r. repeat split; constructor.
  - cbn [EncryptMultipleFiles_loop] in H.
    destruct (EncryptFile K f overwrite removeSource (e, rnd, fs))
      as [[[[e1 r1] fs1] [nm [err|]]]|] eqn:Hfile; [| |discriminate];
      apply EncryptFile_name in Hfile as (Hext & Hname);
      apply IH in H as (nn & ne & -> & -> & Hcount & Herrs & Hnames);
      assert (Hfrom : Forall (fun n => exists f0,
                                In f0 (f :: rest) /\ n = GetEncryptedFileName e f0)
                        nn)
        by (eapply Forall_impl; [|exact Hnames];
            intros n (f0 & Hin & ->); exists f0; split; [now right|];
            unfold GetEncryptedFileName; now rewrite Hext).
    + exists nn, (E_Entity errors.Encrypt "encrypter.EncryptMultipleFiles" f
                    (Some err) :: ne).
      rewrite <- app_assoc. cbn [app List.length].
      repeat split; try assumption; [lia|].
      constructor; [|exact Herrs].
      rewrite Is_E_Entity_beq by discriminate. reflexivity.
    + exists (nm :: nn), ne.
      rewrite <- app_assoc. cbn [app List.length].
      repeat split; try assumption; [lia|].
      constructor; [|exact Hfrom].
      exists f. split; [now left | now apply Hname].
Qed.

(** X26.  [EncryptMultipleFiles] gives every input file either a name or
    an error: the two lists it returns have together as many entries as
    there were names.  Every error is of kind Encrypt, and every name is the
    encrypted name of one of the inputs. *)
Theorem EncryptMultipleFiles_accounting (K : bytes) (fileNames : list string)
    (overwrite removeSource : bool) (e : celo) (rnd : Reader) (fs : FS)
    (st' : World) (names : list string) (errs : list error) :
  EncryptMultipleFiles K fileNames overwrite removeSource (e, rnd, fs)
  = Some (st', (names, errs)) ->
  (List.length names + List.length errs = List.length fileNames)%nat /\
  Forall (fun x => Is errors.Encrypt x = true) errs /\
  Forall (fun n => exists f, In f fileNames /\ n = GetEncryptedFileName e f)
    names.
Proof.
  unfold EncryptMultipleFiles. intros H.
  apply EncryptMultipleFiles_loop_accounting in H
    as (nn & ne & -> & -> & Hcount & Herrs & Hnames).
  cbn [app]. repeat split; assumption.
Qed.

(** [DecryptFile] keeps the extension of the session; the name it returns
    on success is the decrypted name of the source. *)
Lemma Decrypter_Read_ext (d d' : celo) (r r' : Reader)
    (res : Z * option error) :
  Decrypter_Read d r = Some (d', r', res) -> ext d' = ext d.
Proof.
  unfold Decrypter_Read.
  destruct (DecodeMetadata r) as [r1 [[m n1] [e1|]]];
    [intros H; injection H as <- <- <-; reflexivity|].
  destruct (make_bytes _) as [zs|]; [|discriminate].
  destruct (ReadFull r1 _) as [r2 [[s n2] [e2|]]];
    [intros H; injection H as <- <- <-; reflexivity|].
  match goal with
  | |- context [if ?c then set_cipher _ None else _] => destruct c
  end;
    (destruct (make_bytes _) as [zn|]; [|discriminate]);
    destruct (ReadFull r2 _) as [r3 [[nb n3] [e3|]]];
    cbn [ReadAll]; intros H; injection H as <- <- <-; reflexivity.
Qed.

Lemma Decrypter_Decrypt_ext (K : bytes) (d d' : celo)
    (res : bytes * option error) :
  Decrypter_Decrypt K d = Some (d', res) -> ext d' = ext d.
Proof.
  unfold Decrypter_Decrypt.
  destruct (IsReady d); cbn [negb];
    [|intros H; injection H as <- <-; reflexivity].
  assert (Hc : forall d1 c1,
             match Cipher_Decrypt c1 (bytes_of (nonce d1)) (bytes_of (ciphertext d1)) with
             | Some (_, Some err) => Some (d1, ([], Some err))
             | Some (plaintext, None) => Some (d1, (plaintext, None))
             | None => None
             end = Some (d', res) -> d' = d1).
  { intros d1 c1. destruct (Cipher_Decrypt _ _ _) as [[pt [err|]]|];
      [| |discriminate]; intros H; injection H as <- <-; reflexivity. }
  destruct (cipher d) as [c|] eqn:Hcd.
  - rewrite Hcd. intros H. apply Hc in H. now subst.
  - unfold Decrypter_initCipher. destruct (NewCipher _ _ _) as [c [err|]].
    + intros H; injection H as <- <-. reflexivity.
    + destruct c as [c|]; cbn [cipher set_cipher]; [|discriminate].
      intros H. apply Hc in H. now subst.
Qed.

Lemma DecryptFile_name (K : bytes) (name : string)
    (overwrite removeSource : bool) (d d' : celo) (fs fs' : FS)
    (decryptedName : string) (err : option error) :
  DecryptFile K name overwrite removeSource (d, fs)
  = Some (d', fs', (decryptedName, err)) ->
  ext d' = ext d /\
  (err = None -> decryptedName = GetDecryptedFileName d name).
Proof.
  unfold DecryptFile.
  destruct (os_Open name fs) as [src|e0];
    [|intros H; injection H as <- <- <- <-; split; [reflexivity|discriminate]].
  destruct (Decrypter_Read d src) as [[[d1 r1] [n [e1|]]]|] eqn:Hread;
    [| |discriminate]; apply Decrypter_Read_ext in Hread.
  { intros H; injection H as <- <- <- <-. split; [exact Hread|discriminate]. }
  destruct (Decrypter_Decrypt K d1) as [[d2 [pt [e2|]]]|] eqn:Hdec;
    [| |discriminate]; apply Decrypter_Decrypt_ext in Hdec.
  { intros H; injection H as <- <- <- <-. split; [congruence|discriminate]. }
  destruct (file_Create _ _ _) as [fs1 [[f existed] [e3|]]];
    [intros H; injection H as <- <- <- <-; split; [congruence|discriminate]|].
  destruct f as [f|]; [|discriminate].
  destruct (file_Write f fs1 pt) as [fs2 [n2 [e4|]]];
    intros H; injection H as <- <- <- <-;
    (split; [congruence|]); [discriminate|].
  intros _. unfold GetDecryptedFileName. now rewrite Hdec, Hread.
Qed.

Lemma DecryptMultipleFiles_loop_accounting (K : bytes)
    (overwrite removeSource : bool) (fileNames : list string) :
  forall (d : celo) (fs : FS) (names : list string) (errs : list error)
         (st' : celo * FS) (names' : list string) (errs' : list error),
    DecryptMultipleFiles_loop K fileNames overwrite removeSource (d, fs)
      names errs = Some (st', (names', errs')) ->
    exists newNames newErrs,
      names' = names ++ newNames /\ errs' = errs ++ newErrs /\
      (List.length newNames + List.length newErrs
       = List.length fileNames)%nat /\
      Forall (fun x => Is errors.Decrypt x = true) newErrs /\
      Forall (fun n => exists f, In f fileNames /\ n = GetDecryptedFileName d f)
        newNames.
Proof.
  induction fileNames as [|f rest IH];
    intros d fs names errs st' names' errs' H.
  - cbn [DecryptMultipleFiles_loop] in H. injection H as <- <- <-.
    exists [], []. rewrite !app_nil_r. repeat split; constructor.
  - cbn [DecryptMultipleFiles_loop] in H.
    destruct (DecryptFile K f overwrite removeSource (d, fs))
      as [[[d1 fs1] [nm [err|]]]|] eqn:Hfile; [| |discriminate];
      apply DecryptFile_name in Hfile as (Hext & Hname);
      apply IH in H as (nn & ne & -> & -> & Hcount & Herrs & Hnames);
      assert (Hfrom : Forall (fun n => exists f0,
                                In f0 (f :: rest) /\ n = GetDecryptedFileName d f0)
                        nn)
        by (eapply Forall_impl; [|exact Hnames];
            intros n (f0 & Hin & ->); exists f0; split; [now right|];
            unfold GetDecryptedFileName; now rewrite Hext).
    + exists nn, (E_Entity errors.Decrypt "decrypter.DecryptMultipleFiles" f
                    (Some err) :: ne).
      rewrite <- app_assoc. cbn [app List.length].
      repeat split; try assumption; [lia|].
      constructor; [|exact Herrs].
      rewrite Is_E_Entity_beq by discriminate. reflexivity.
    + exists (nm :: nn), ne.
      rewrite <- app_assoc. cbn [app List.length].
      repeat split; try assumption; [lia|].
      constructor; [|exact Hfrom].
      exists f. split; [now left | now apply Hname].
Qed.

(** X27.  [DecryptMultipleFiles] gives every input file either a name or
    an error: the two lists it returns have together as many entries as
    there were names.  Every error is of kind Decrypt, and every name is the
    decrypted name of one of the inputs. *)
Theorem DecryptMultipleFiles_accounting (K : bytes) (fileNames : list string)
    (overwrite removeSource : bool) (d : celo) (fs : FS)
    (st' : celo * FS) (names : list string) (errs : list error) :
  DecryptMultipleFiles K fileNames overwrite removeSource (d, fs)
  = Some (st', (names, errs)) ->
  (List.length names + List.length errs = List.length fileNames)%nat /\
  Forall (fun x => Is errors.Decrypt x = true) errs /\
  Forall (fun n => exists f, In f fileNames /\ n = GetDecryptedFileName d f)
    names.
Proof.
  unfold DecryptMultipleFiles. intros H.
  apply DecryptMultipleFiles_loop_accounting in H
    as (nn & ne & -> & -> & Hcount & Herrs & Hnames).
  cbn [app]. repeat split; assumption.
Qed.

End Batches.

Lemma EncryptMultipleFiles_accounting_witness :
  exists st' errs,
    EncryptMultipleFiles (P:=Double.prims) (O:=Disk.os) phrase_ok
      ["book_draft.md"; "missing.txt"; "notes"] false false
      (NewEncrypter, entropy50, disk_draft)
    = Some (st', (["book_draft.md.celo"], errs)) /\
    List.length errs = 2%nat /\
    Forall (fun x => Is errors.Encrypt x = true) errs.
Proof.
  assert (H : exists st' errs,
             EncryptMultipleFiles (P:=Double.prims) (O:=Disk.os) phrase_ok
               ["book_draft.md"; "missing.txt"; "notes"] false false
               (NewEncrypter, entropy50, disk_draft)
             = Some (st', (["book_draft.md.celo"], errs)) /\
             List.length errs = 2%nat)
    by (do 2 eexists; split; reflexivity).
  destruct H as (st' & errs & H & Hlen).
  destruct (@EncryptMultipleFiles_accounting Double.prims Disk.os phrase_ok
              _ false false NewEncrypter entropy50 disk_draft st' _ errs H)
    as (_ & Herrs & _).
  exists st', errs. split; [exact H|]. split; [exact Hlen | exact Herrs].
Defined.

Lemma DecryptMultipleFiles_accounting_witness :
  exists st' errs,
    DecryptMultipleFiles (P:=Double.prims) (O:=Disk.os) phrase_ok
      ["book_draft.md.celo"; "missing.celo"] true false
      (NewDecrypter, disk_encrypted)
    = Some (st', (["book_draft.md"], errs)) /\
    List.length errs = 1%nat /\
    Forall (fun x => Is errors.Decrypt x = true) errs.
Proof.
  assert (H : exists st' errs,
             DecryptMultipleFiles (P:=Double.prims) (O:=Disk.os) phrase_ok
               ["book_draft.md.celo"; "missing.celo"] true false
               (NewDecrypter, disk_encrypted)
             = Some (st', (["book_draft.md"], errs)) /\
             List.length errs = 1%nat)
    by (do 2 eexists; split; reflexivity).
  destruct H as (st' & errs & H & Hlen).
  destruct (@DecryptMultipleFiles_accounting Double.prims Disk.os phrase_ok
              _ true false NewDecrypter disk_encrypted st' _ errs H)
    as (_ & Herrs & _).
  exists st', errs. split; [exact H|]. split; [exact Hlen | exact Herrs].
Defined.

(** [Encrypter_Write_to] at the in-memory writer is [Encrypter_Write]. *)
Lemma Encrypter_Write_to_Sink (e : celo) (w : Sink) :
  Encrypter_Write_to Sink_Write e w = Encrypter_Write e w.
Proof. reflexivity. Qed.

(** ** cmd/celo: the arguments of the command line *)

Lemma extractSources_loop_split (args files : list string) (found : Z) :
  exists taken rest,
    extractSources_loop args files found
    = (files ++ taken, found + Z.of_nat (List.length taken)) /\
    args = taken ++ rest /\
    Forall (fun a => isFlag a = false) taken /\
    match rest with
    | [] => True
    | a :: _ => isFlag a = true
    end.
Proof.
  revert files found. induction args as [|a args IH]; intros files found.
  - exists [], []. cbn [extractSources_loop List.length app].
    rewrite app_nil_r, Z.add_0_r. repeat split. constructor.
  - cbn [extractSources_loop]. destruct (isFlag a) eqn:Hflag.
    + exists [], (a :: args). cbn [List.length app].
      rewrite app_nil_r, Z.add_0_r. repeat split; [constructor | exact Hflag].
    + destruct (IH (files ++ [a]) (found + 1))
        as (taken & rest & -> & -> & Hall & Hrest).
      exists (a :: taken), rest. rewrite <- app_assoc. cbn [app List.length].
      repeat split; [f_equal; lia | now constructor | exact Hrest].
Qed.

(** X28.  [extractSources] cuts the arguments at the first flag: the files
    it returns are the arguments before it, none of them a flag, the count
    is their number, and what remains is empty or starts with a flag. *)
Theorem extractSources_split (args : list string) :
  exists rest,
    args = fst (extractSources args) ++ rest /\
    snd (extractSources args)
    = Z.of_nat (List.length (fst (extractSources args))) /\
    Forall (fun a => isFlag a = false) (fst (extractSources args)) /\
    match rest with
    | [] => True
    | a :: _ => isFlag a = true
    end.
Proof.
  unfold extractSources.
  destruct (extractSources_loop_split args [] 0)
    as (taken & rest & -> & Hargs & Hall & Hrest).
  exists rest. cbn [fst snd app]. repeat split; assumption.
Qed.

Section CommandLineProperties.

Variable Errorf : string -> error.



End CommandLineProperties.

